(** * Sequence alignment (Needleman-Wunsch) -- sequence_alignment.py

    A shallow embedding of [sequence_alignment] and of its private helper
    [_reconstruct_optimal_alignment], followed by the properties of the
    cost table and of the backtracking that the specification states.

    Conventions of the embedding
    - a Python [str] is a [list ascii]; the gap marker is the blank [" "];
    - a Python [int] is a [Z] (unbounded); indices, which the loops keep
      non-negative, are [nat];
    - [pen_map : Dict[str, Dict[str, int]]] is a [gmap ascii (gmap ascii Z)];
    - the table [subproblems] / [dp] is a [list (list Z)], updated in place
      by index; reading or writing out of range raises [IndexError];
    - an exception ends the computation: outcomes live in [result], whose
      third constructor [NoFuel] marks an exhausted iteration bound and is
      shown never to occur ([sequence_alignment_terminates]). *)

From Stdlib Require Import ZArith Ascii String List Lia.
From stdpp Require Import base option list gmap strings.

Local Open Scope Z_scope.

(** ** Outcomes of a Python computation *)

Inductive exn : Set := KeyError | TypeError | IndexError.

Inductive result (A : Type) : Type :=
| Returned (a : A)      (* normal completion with a value *)
| Raised (e : exn)      (* an uncaught exception *)
| NoFuel.               (* the iteration bound of a [while] was exhausted *)
Arguments Returned {A} a.
Arguments Raised {A} e.
Arguments NoFuel {A}.

(** Sequencing: an exception (or an exhausted bound) skips the rest. *)
#[global] Instance result_bind : MBind result := fun A B k r =>
  match r with
  | Returned a => k a
  | Raised e => Raised e
  | NoFuel => NoFuel
  end.

(** [for v in l: s = body(s, v)] *)
Fixpoint for_each {St : Type} (l : list nat) (body : St -> nat -> result St) (s : St)
  : result St :=
  match l with
  | [] => Returned s
  | v :: l' => s' ← body s v; for_each l' body s'
  end.

(** [range(a, a + len)] *)
Definition range (a len : nat) : list nat := seq a len.

(** ** Strings, the penalty map and the table *)

Abbreviation str := (list ascii).
Definition gap_marker : ascii := " "%char.

(** [s[i]] for [0 <= i] *)
Definition str_get (s : str) (i : nat) : result ascii :=
  match s !! i with
  | Some c => Returned c
  | None => Raised IndexError
  end.

(** [pen_map[a][b]]: each of the two subscripts raises [KeyError] when the
    key is absent. *)
Definition pen_lookup (pen_map : gmap ascii (gmap ascii Z)) (a b : ascii) : result Z :=
  match pen_map !! a with
  | None => Raised KeyError
  | Some row =>
      match row !! b with
      | None => Raised KeyError
      | Some p => Returned p
      end
  end.

Abbreviation table := (list (list Z)).

(** [t[i][j]] *)
Definition get_cell (t : table) (i j : nat) : result Z :=
  match t !! i with
  | None => Raised IndexError
  | Some row =>
      match row !! j with
      | None => Raised IndexError
      | Some v => Returned v
      end
  end.

(** [t[i][j] = v] *)
Definition set_cell (t : table) (i j : nat) (v : Z) : result table :=
  match t !! i with
  | None => Raised IndexError
  | Some row =>
      if decide (j < length row)%nat
      then Returned (<[i := <[j := v]> row]> t)
      else Raised IndexError
  end.

(** [min(a, b, c)] on integers *)
Definition min3 (a b c : Z) : Z := Z.min (Z.min a b) c.

(** ** The table builder: lines 65-79 of [sequence_alignment] *)

(** [[[0] * (n + 1) for _ in range(m + 1)]]: every row is a fresh list. *)
Definition zero_table (m n : nat) : table := replicate (m + 1) (replicate (n + 1) 0).

(** The body of the inner loop, lines 75-79. *)
Definition fill_cell (x y : str) (gap_pen : Z) (pen_map : gmap ascii (gmap ascii Z))
    (i : nat) (subproblems : table) (j : nat) : result table :=
  x_curr ← str_get x (i - 1);
  y_curr ← str_get y (j - 1);
  up_left ← get_cell subproblems (i - 1) (j - 1);
  pen ← pen_lookup pen_map x_curr y_curr;
  let result1 := up_left + pen in
  up ← get_cell subproblems (i - 1) j;
  let result2 := up + gap_pen in
  left ← get_cell subproblems i (j - 1);
  let result3 := left + gap_pen in
  set_cell subproblems i j (min3 result1 result2 result3).

Definition build_subproblems (x y : str) (gap_pen : Z)
    (pen_map : gmap ascii (gmap ascii Z)) : result table :=
  let m := length x in
  let n := length y in
  let subproblems := zero_table m n in
  subproblems ← for_each (range 0 (m + 1))
                   (fun t i => set_cell t i 0 (Z.of_nat i * gap_pen)) subproblems;
  subproblems ← for_each (range 0 (n + 1))
                   (fun t j => set_cell t 0 j (Z.of_nat j * gap_pen)) subproblems;
  for_each (range 1 m)
    (fun t i => for_each (range 1 n) (fill_cell x y gap_pen pen_map i) t)
    subproblems.

(** ** The path reconstructor: [_reconstruct_optimal_alignment] *)

(** The local variables of the loop.  [y] itself is not among them: the
    only statement that would assign it, [y -= 1] on line 110, raises
    before any assignment takes place. *)
Record state : Type := State { sx : str; sy : str; i_ : nat; j_ : nat }.

(** The three branches of the [if]/[elif]/[else] on lines 105-120, named
    as in the comments of the source. *)
Inductive case : Set := Case1 | Case2 | Case3.

(** Which branch the comparisons on lines 105 and 111 select. *)
Definition select_case (result result1 result2 : Z) : case :=
  if result =? result1 then Case1
  else if result =? result2 then Case2
  else Case3.

(** [y -= 1] with [y : str]: [str] and [int] have no common [-]. *)
Definition str_sub_int (y : str) (k : Z) : result str := Raised TypeError.

(** One iteration of the [while], lines 101-120.  The loop runs it with
    [i >= 1] and [j >= 1] only, where [i - 1] and [j - 1] are the indices
    Python computes. *)
Definition loop_body (x y : str) (gap_pen : Z) (pen_map : gmap ascii (gmap ascii Z))
    (dp : table) (st : state) : result state :=
  let i := i_ st in
  let j := j_ st in
  x_curr ← str_get x (i - 1);
  y_curr ← str_get y (j - 1);
  up_left ← get_cell dp (i - 1) (j - 1);
  pen ← pen_lookup pen_map x_curr y_curr;
  let result1 := up_left + pen in
  up ← get_cell dp (i - 1) j;
  let result2 := up + gap_pen in
  result ← get_cell dp i j;
  match select_case result result1 result2 with
  | Case1 =>
      let sx' := x_curr :: sx st in
      let sy' := y_curr :: sy st in
      let i' := (i - 1)%nat in
      _ ← str_sub_int y 1;
      Returned (State sx' sy' i' j)
  | Case2 =>
      Returned (State (x_curr :: sx st) (gap_marker :: sy st) (i - 1) j)
  | Case3 =>
      Returned (State (gap_marker :: sx st) (y_curr :: sy st) i (j - 1))
  end.

(** [while i >= 1 and j >= 1: ...], bounded by [fuel] iterations. *)
Fixpoint while_loop (fuel : nat) (x y : str) (gap_pen : Z)
    (pen_map : gmap ascii (gmap ascii Z)) (dp : table) (st : state) : result state :=
  if (1 <=? i_ st)%nat && (1 <=? j_ st)%nat then
    match fuel with
    | O => NoFuel
    | S fuel' =>
        st' ← loop_body x y gap_pen pen_map dp st;
        while_loop fuel' x y gap_pen pen_map dp st'
    end
  else Returned st.

(** Lines 121-125. *)
Definition pad_and_return (st : state) : list str :=
  if decide (i_ st ≠ 0%nat) then
    [sx st; replicate (i_ st) gap_marker ++ sy st]
  else if decide (j_ st ≠ 0%nat) then
    [replicate (j_ st) gap_marker ++ sx st; sy st]
  else [sx st; sy st].

(** Every iteration that does not raise decreases [i + j], so
    [len(x) + len(y)] iterations are enough (see [while_loop_fuel]). *)
Definition _reconstruct_optimal_alignment (x y : str) (gap_pen : Z)
    (pen_map : gmap ascii (gmap ascii Z)) (dp : table) : result (list str) :=
  let st := State [] [] (length x) (length y) in
  st ← while_loop (length x + length y) x y gap_pen pen_map dp st;
  Returned (pad_and_return st).

(** ** The public operation *)

Definition sequence_alignment (x y : str) (gap_pen : Z)
    (pen_map : gmap ascii (gmap ascii Z)) : result (list str) :=
  if bool_decide (x = []) || bool_decide (y = []) then Returned []
  else if gap_pen <? 0 then Returned []
  else if bool_decide (pen_map = ∅) then Returned []
  else
    subproblems ← build_subproblems x y gap_pen pen_map;
    _reconstruct_optimal_alignment x y gap_pen pen_map subproblems.

(** ** Notions used to state the properties *)

(** The content of cell [(i, j)], when the table has one. *)
Definition cell (t : table) (i j : nat) : option Z := row ← t !! i; row !! j.

(** A dense [(m + 1) x (n + 1)] grid. *)
Definition has_shape (m n : nat) (t : table) : Prop :=
  length t = (m + 1)%nat ∧ ∀ i row, t !! i = Some row → length row = (n + 1)%nat.

(** The penalty map has an entry for every pair of a symbol of [x] and a
    symbol of [y]. *)
Definition pen_total (pen_map : gmap ascii (gmap ascii Z)) (x y : str) : Prop :=
  ∀ a b, a ∈ x → b ∈ y → ∃ p, pen_lookup pen_map a b = Returned p.

(** The entries for the pairs of [x] and [y] are non-negative. *)
Definition pen_nonneg (pen_map : gmap ascii (gmap ascii Z)) (x y : str) : Prop :=
  ∀ a b p, a ∈ x → b ∈ y → pen_lookup pen_map a b = Returned p → 0 ≤ p.

(** The substitution penalty of a pair, read as a number ([0] where the
    map has no entry; the properties below use it on total maps). *)
Definition penalty (pen_map : gmap ascii (gmap ascii Z)) (a b : ascii) : Z :=
  match pen_lookup pen_map a b with
  | Returned p => p
  | _ => 0
  end.

(** An alignment, column by column; [None] is a gap. *)
Definition column : Type := option ascii * option ascii.

Definition column_penalty (gap_pen : Z) (pen_map : gmap ascii (gmap ascii Z))
    (c : column) : Z :=
  match c with
  | (Some a, Some b) => penalty pen_map a b
  | _ => gap_pen
  end.

Definition alignment_penalty (gap_pen : Z) (pen_map : gmap ascii (gmap ascii Z))
    (al : list column) : Z :=
  foldr (λ c acc, column_penalty gap_pen pen_map c + acc) 0 al.

(** [al] is an alignment of [x] and [y]: deleting the gaps of its first
    row gives [x], deleting those of its second row gives [y]. *)
Definition aligns (x y : str) (al : list column) : Prop :=
  omap fst al = x ∧ omap snd al = y.

(** Deleting the gap markers of an output string. *)
Definition strip_gaps (s : str) : str :=
  filter (λ c, c ≠ gap_marker) s.

(** The recurrence of the module docstring, on prefix lengths:
    [opt_penalty i j] is S(X_i, Y_j). *)
Section Recurrence.
Variables (x y : str) (gap_pen : Z) (pen_map : gmap ascii (gmap ascii Z)).

Definition pen_at (i j : nat) : Z :=
  match x !! i, y !! j with
  | Some a, Some b => penalty pen_map a b
  | _, _ => 0
  end.

Fixpoint opt_penalty (i : nat) : nat → Z :=
  fix opt_row (j : nat) : Z :=
    match i with
    | O => Z.of_nat j * gap_pen
    | S i' =>
        match j with
        | O => Z.of_nat i * gap_pen
        | S j' =>
            min3 (opt_penalty i' j' + pen_at i' j')
                 (opt_penalty i' j + gap_pen)
                 (opt_row j' + gap_pen)
        end
    end.
End Recurrence.

(** Invariants of the loops of the table builder. *)
Section BuilderInvariants.
Variables (x y : str) (gap_pen : Z) (pen_map : gmap ascii (gmap ascii Z)).

(** The pair met at cell [(i, j)] has, or lacks, an entry. *)
Definition pair_present (i j : nat) : Prop :=
  ∃ a b p, x !! (i - 1)%nat = Some a ∧ y !! (j - 1)%nat = Some b
           ∧ pen_lookup pen_map a b = Returned p.

Definition pair_missing (i j : nat) : Prop :=
  ∃ a b, x !! (i - 1)%nat = Some a ∧ y !! (j - 1)%nat = Some b
         ∧ pen_lookup pen_map a b = Raised KeyError.

(** Column 0 holds its seeds. *)
Definition col0_seeded (t : table) : Prop :=
  ∀ i, (i ≤ length x)%nat → cell t i 0 = Some (Z.of_nat i * gap_pen).

(** Rows below [i] are final, and so is column 0. *)
Definition rows_done (i : nat) (t : table) : Prop :=
  has_shape (length x) (length y) t ∧ col0_seeded t
  ∧ ∀ i' j', (i' < i)%nat → (j' ≤ length y)%nat →
             cell t i' j' = Some (opt_penalty x y gap_pen pen_map i' j').

(** Within row [i], the cells left of column [j] are final as well. *)
Definition row_partly_done (i j : nat) (t : table) : Prop :=
  rows_done i t
  ∧ ∀ j', (j' < j)%nat → cell t i j' = Some (opt_penalty x y gap_pen pen_map i j').
End BuilderInvariants.

(** The backtracking has taken gap steps only, and the table accounts for
    them: the invariant of the iterations that complete. *)
Definition on_gap_path (x y : str) (gap_pen : Z) (pen_map : gmap ascii (gmap ascii Z))
    (st : state) : Prop :=
  (i_ st ≤ length x)%nat ∧ (j_ st ≤ length y)%nat
  ∧ length (sx st) = (length x - i_ st + (length y - j_ st))%nat
  ∧ opt_penalty x y gap_pen pen_map (length x) (length y)
    = opt_penalty x y gap_pen pen_map (i_ st) (j_ st)
      + Z.of_nat (length (sx st)) * gap_pen.

(** The backtracking has gone straight up in the last column: the
    invariant of the iterations that complete when no substitution is
    cheaper than two gaps. *)
Definition straight_up (x y : str) (st : state) : Prop :=
  j_ st = length y ∧ (i_ st ≤ length x)%nat
  ∧ sx st = drop (i_ st) x
  ∧ sy st = replicate (length x - i_ st) gap_marker.

(** ** Concrete inputs *)

(** A string literal as a Python [str]. *)
Definition str_of (lit : string) : str := list_ascii_of_string lit.

(** The map that charges [same] for a symbol against itself and [diff] for
    two distinct symbols of [alphabet]. *)
Definition uniform_pen (alphabet : str) (same diff : Z) : gmap ascii (gmap ascii Z) :=
  list_to_map
    (map (λ a, (a, list_to_map
                     (map (λ b, (b, if decide (a = b) then same else diff)) alphabet)))
         alphabet).

Definition dna_pen : gmap ascii (gmap ascii Z) := uniform_pen (str_of "ACGT") 0 3.

(** Penalty 10 for every pair over {A, B, C}: gaps are always cheaper. *)
Definition flat_pen : gmap ascii (gmap ascii Z) := uniform_pen (str_of "ABC") 10 10.

(** A negative penalty for the pair (A, A). *)
Definition neg_pen : gmap ascii (gmap ascii Z) := uniform_pen (str_of "A") (-1) (-1).

(** ** Tactics for concrete inputs *)

(** Case analysis over the symbols of two literal strings. *)
Ltac each_symbol Ha Hb :=
  apply list_elem_of_In in Ha; apply list_elem_of_In in Hb;
  simpl in Ha, Hb;
  repeat match goal with
         | H : _ ∨ _ |- _ => destruct H as [H | H]
         | H : False |- _ => destruct H
         end;
  subst.

Ltac solve_pen_total :=
  let a := fresh "a" in let b := fresh "b" in
  let Ha := fresh "Ha" in let Hb := fresh "Hb" in
  intros a b Ha Hb; each_symbol Ha Hb; vm_compute; eauto.

Ltac solve_pen_nonneg :=
  let a := fresh "a" in let b := fresh "b" in let p := fresh "p" in
  let Ha := fresh "Ha" in let Hb := fresh "Hb" in let Hp := fresh "Hp" in
  intros a b p Ha Hb Hp; each_symbol Ha Hb; vm_compute in Hp;
  injection Hp as <-; lia.

Ltac solve_pen_nonempty c :=
  let H := fresh "H" in
  intros H; apply (f_equal (λ pm : gmap ascii (gmap ascii Z), pm !! c)) in H;
  vm_compute in H; discriminate H.

(** ** Outcomes and loops *)

Lemma bind_Returned {A B} (r : result A) (k : A → result B) (b : B) :
  r ≫= k = Returned b ↔ ∃ a, r = Returned a ∧ k a = Returned b.
Proof.
  destruct r as [a | e |]; simpl; split.
  - eauto.
  - intros (a' & [= ->] & H). exact H.
  - discriminate.
  - intros (? & ? & _); discriminate.
  - discriminate.
  - intros (? & ? & _); discriminate.
Qed.

(** The rule of a [for] over [range(a, a + len)].  Each iteration either
    completes, re-establishing the invariant [P] at the next index and
    contributing [ok k], or raises [e] with [bad k]. *)
Lemma for_each_range {St : Type} (P : nat → St → Prop) (ok bad : nat → Prop)
    (e : exn) (body : St → nat → result St) (len a : nat) (st : St) :
  P a st →
  (∀ k st, (a ≤ k < a + len)%nat → P k st →
     (∃ st', body st k = Returned st' ∧ P (k + 1)%nat st' ∧ ok k)
     ∨ (body st k = Raised e ∧ bad k)) →
  (∃ st', for_each (range a len) body st = Returned st'
          ∧ P (a + len)%nat st' ∧ ∀ k, (a ≤ k < a + len)%nat → ok k)
  ∨ (for_each (range a len) body st = Raised e
     ∧ ∃ k, (a ≤ k < a + len)%nat ∧ bad k).
Proof.
  revert a st. induction len as [| len IH]; intros a st HP Hbody.
  - left. exists st. simpl. rewrite Nat.add_0_r. repeat split; [done | lia].
  - simpl. destruct (Hbody a st ltac:(lia) HP) as [(st' & Hb & HP' & Hok) | [Hb Hbad]].
    + rewrite Hb. simpl.
      destruct (IH (S a) st') as [(st'' & Hf & HP'' & Hoks) | (Hf & k & Hk & Hbad)].
      * by replace (S a) with (a + 1)%nat by lia.
      * intros k st0 Hk. apply Hbody. lia.
      * left. exists st''. rewrite Hf.
        split; [done |]. split.
        -- by replace (a + S len)%nat with (S a + len)%nat by lia.
        -- intros k Hk. destruct (decide (k = a)) as [-> | Hne]; [done |].
           apply Hoks. lia.
      * right. rewrite Hf. split; [done |].
        exists k. split; [lia | done].
    + right. rewrite Hb. simpl. split; [done |]. exists a. split; [lia | done].
Qed.

(** ** Reading and writing the table *)

Lemma get_cell_cell (t : table) (i j : nat) (v : Z) :
  cell t i j = Some v → get_cell t i j = Returned v.
Proof.
  unfold cell, get_cell. destruct (t !! i) as [row |]; simpl; [| done].
  by intros ->.
Qed.

Lemma str_get_lookup (w : str) (i : nat) (c : ascii) :
  w !! i = Some c → str_get w i = Returned c.
Proof. unfold str_get. by intros ->. Qed.

Lemma set_cell_spec (t : table) (m n i j : nat) (v : Z) :
  has_shape m n t → (i ≤ m)%nat → (j ≤ n)%nat →
  ∃ t', set_cell t i j v = Returned t' ∧ has_shape m n t'
        ∧ cell t' i j = Some v
        ∧ ∀ i' j', (i', j') ≠ (i, j) → cell t' i' j' = cell t i' j'.
Proof.
  intros [Hlen Hrows] Hi Hj. unfold set_cell.
  destruct (lookup_lt_is_Some_2 t i ltac:(lia)) as [row Hrow].
  rewrite Hrow. pose proof (Hrows i row Hrow) as Hlr.
  destruct (decide (j < length row)%nat) as [_ | ?]; [| lia].
  eexists. split; [done |]. split; [| split].
  - split; [by rewrite length_insert |].
    intros i' row' Hl. destruct (decide (i = i')) as [<- | Hne].
    + rewrite list_lookup_insert_eq in Hl by lia.
      injection Hl as <-. by rewrite length_insert.
    + rewrite list_lookup_insert_ne in Hl by done. eauto.
  - unfold cell. rewrite list_lookup_insert_eq by lia. simpl.
    apply list_lookup_insert_eq. lia.
  - intros i' j' Hne. unfold cell.
    destruct (decide (i = i')) as [<- | Hi'].
    + rewrite list_lookup_insert_eq by lia. rewrite Hrow. simpl.
      apply list_lookup_insert_ne. congruence.
    + by rewrite list_lookup_insert_ne.
Qed.

Lemma zero_table_shape (m n : nat) : has_shape m n (zero_table m n).
Proof.
  unfold zero_table. split; [by rewrite length_replicate |].
  intros i row [-> _]%lookup_replicate. by rewrite length_replicate.
Qed.

Lemma cell_in_shape (t : table) (m n i j : nat) :
  has_shape m n t → (i ≤ m)%nat → (j ≤ n)%nat → is_Some (cell t i j).
Proof.
  intros [Hlen Hrows] Hi Hj. unfold cell.
  destruct (lookup_lt_is_Some_2 t i ltac:(lia)) as [row Hrow].
  rewrite Hrow. simpl. apply lookup_lt_is_Some_2.
  rewrite (Hrows _ _ Hrow). lia.
Qed.

(** ** Arithmetic of the recurrence *)

Lemma min3_cases (a b c : Z) :
  (min3 a b c = a ∨ min3 a b c = b ∨ min3 a b c = c)
  ∧ min3 a b c ≤ a ∧ min3 a b c ≤ b ∧ min3 a b c ≤ c.
Proof. unfold min3. lia. Qed.

Section RecurrenceFacts.
Variables (x y : str) (gap_pen : Z) (pen_map : gmap ascii (gmap ascii Z)).
Abbreviation opt := (opt_penalty x y gap_pen pen_map).
Abbreviation w := (pen_at x y pen_map).

Lemma opt_penalty_row0 (j : nat) : opt 0%nat j = Z.of_nat j * gap_pen.
Proof. by destruct j. Qed.

Lemma opt_penalty_col0 (i : nat) : opt i 0%nat = Z.of_nat i * gap_pen.
Proof. by destruct i. Qed.

Lemma opt_penalty_step (i j : nat) :
  opt (S i) (S j) = min3 (opt i j + w i j) (opt i (S j) + gap_pen)
                         (opt (S i) j + gap_pen).
Proof. reflexivity. Qed.

Lemma opt_penalty_up (i j : nat) : opt (S i) j ≤ opt i j + gap_pen.
Proof.
  destruct j as [| j].
  - rewrite !opt_penalty_col0. lia.
  - rewrite opt_penalty_step. apply min3_cases.
Qed.

Lemma opt_penalty_left (i j : nat) : opt i (S j) ≤ opt i j + gap_pen.
Proof.
  destruct i as [| i].
  - rewrite !opt_penalty_row0. lia.
  - rewrite opt_penalty_step. apply min3_cases.
Qed.

Lemma opt_penalty_diag (i j : nat) : opt (S i) (S j) ≤ opt i j + w i j.
Proof. rewrite opt_penalty_step. apply min3_cases. Qed.
End RecurrenceFacts.

(** ** The table builder computes the recurrence *)

Lemma pen_lookup_cases (pen_map : gmap ascii (gmap ascii Z)) (a b : ascii) :
  (∃ p, pen_lookup pen_map a b = Returned p) ∨ pen_lookup pen_map a b = Raised KeyError.
Proof.
  unfold pen_lookup. destruct (pen_map !! a) as [row |]; [| by right].
  destruct (row !! b) as [p |]; [left; eauto | by right].
Qed.

Section Builder.
Variables (x y : str) (gap_pen : Z) (pen_map : gmap ascii (gmap ascii Z)).
Abbreviation m := (length x).
Abbreviation n := (length y).
Abbreviation opt := (opt_penalty x y gap_pen pen_map).

Lemma seed_col0 (t : table) :
  has_shape m n t →
  ∃ t', for_each (range 0 (m + 1))
          (λ t i, set_cell t i 0 (Z.of_nat i * gap_pen)) t = Returned t'
        ∧ has_shape m n t' ∧ col0_seeded x gap_pen t'.
Proof.
  intros Hsh.
  destruct (for_each_range
    (λ k t, has_shape m n t
            ∧ ∀ i, (i < k)%nat → cell t i 0 = Some (Z.of_nat i * gap_pen))
    (λ _, True) (λ _, False) IndexError
    (λ t i, set_cell t i 0 (Z.of_nat i * gap_pen)) (m + 1) 0 t)
    as [(t' & Hf & [Hsh' Hc] & _) | (_ & k & _ & [])].
  - split; [done | lia].
  - intros k t0 Hk [Hsh0 Hc]. left.
    destruct (set_cell_spec t0 m n k 0 (Z.of_nat k * gap_pen) Hsh0)
      as (t' & Hs & Hsh' & Hv & Hoth); [lia | lia |].
    exists t'. repeat split; [done | apply Hsh' | apply Hsh' |].
    intros i Hi. destruct (decide (i = k)) as [-> | Hne]; [done |].
    rewrite Hoth by congruence. apply Hc. lia.
  - exists t'. repeat split; [done | apply Hsh' | apply Hsh' |].
    intros i Hi. apply Hc. lia.
Qed.

Lemma seed_row0 (t : table) :
  has_shape m n t → col0_seeded x gap_pen t →
  ∃ t', for_each (range 0 (n + 1))
          (λ t j, set_cell t 0 j (Z.of_nat j * gap_pen)) t = Returned t'
        ∧ has_shape m n t' ∧ col0_seeded x gap_pen t'
        ∧ ∀ j, (j ≤ n)%nat → cell t' 0 j = Some (Z.of_nat j * gap_pen).
Proof.
  intros Hsh Hcol.
  destruct (for_each_range
    (λ k t, has_shape m n t ∧ col0_seeded x gap_pen t
            ∧ ∀ j, (j < k)%nat → cell t 0 j = Some (Z.of_nat j * gap_pen))
    (λ _, True) (λ _, False) IndexError
    (λ t j, set_cell t 0 j (Z.of_nat j * gap_pen)) (n + 1) 0 t)
    as [(t' & Hf & (Hsh' & Hcol' & Hr) & _) | (_ & k & _ & [])].
  - repeat split; [apply Hsh | apply Hsh | done | lia].
  - intros k t0 Hk (Hsh0 & Hcol0 & Hr). left.
    destruct (set_cell_spec t0 m n 0 k (Z.of_nat k * gap_pen) Hsh0)
      as (t' & Hs & Hsh' & Hv & Hoth); [lia | lia |].
    exists t'. repeat split; [done | apply Hsh' | apply Hsh' | |].
    + intros i Hi. destruct (decide ((i, 0%nat) = (0%nat, k))) as [[= -> <-] | Hne].
      * done.
      * rewrite Hoth by done. by apply Hcol0.
    + intros j Hj. destruct (decide (j = k)) as [-> | Hne]; [done |].
      rewrite Hoth by congruence. apply Hr. lia.
  - exists t'. repeat split; [done | apply Hsh' | apply Hsh' | done |].
    intros j Hj. apply Hr. lia.
Qed.

(** One cell of the bottom-up calculation. *)
Lemma fill_cell_spec (t : table) (i j : nat) (d u l : Z) :
  has_shape m n t → (1 ≤ i ≤ m)%nat → (1 ≤ j ≤ n)%nat →
  cell t (i - 1) (j - 1) = Some d → cell t (i - 1) j = Some u →
  cell t i (j - 1) = Some l →
  (∃ a b p t', x !! (i - 1)%nat = Some a ∧ y !! (j - 1)%nat = Some b
      ∧ pen_lookup pen_map a b = Returned p
      ∧ fill_cell x y gap_pen pen_map i t j = Returned t'
      ∧ has_shape m n t'
      ∧ cell t' i j = Some (min3 (d + p) (u + gap_pen) (l + gap_pen))
      ∧ ∀ i' j', (i', j') ≠ (i, j) → cell t' i' j' = cell t i' j')
  ∨ (fill_cell x y gap_pen pen_map i t j = Raised KeyError ∧ pair_missing x y pen_map i j).
Proof.
  intros Hsh Hi Hj Hd Hu Hl. unfold fill_cell.
  destruct (lookup_lt_is_Some_2 x (i - 1) ltac:(lia)) as [a Ha].
  destruct (lookup_lt_is_Some_2 y (j - 1) ltac:(lia)) as [b Hb].
  rewrite (str_get_lookup _ _ _ Ha), (str_get_lookup _ _ _ Hb). simpl.
  rewrite (get_cell_cell _ _ _ _ Hd). simpl.
  destruct (pen_lookup_cases pen_map a b) as [[p Hp] | Hp]; rewrite Hp; simpl.
  - rewrite (get_cell_cell _ _ _ _ Hu), (get_cell_cell _ _ _ _ Hl). simpl.
    destruct (set_cell_spec t m n i j
                (min3 (d + p) (u + gap_pen) (l + gap_pen)) Hsh)
      as (t' & Hs & Hsh' & Hv & Hoth); [lia | lia |].
    left. exists a, b, p, t'. done.
  - right. split; [done |]. by exists a, b.
Qed.

Lemma pen_at_present (i j : nat) (a b : ascii) (p : Z) :
  x !! i = Some a → y !! j = Some b → pen_lookup pen_map a b = Returned p →
  pen_at x y pen_map i j = p.
Proof. intros Ha Hb Hp. unfold pen_at, penalty. by rewrite Ha, Hb, Hp. Qed.

(** The inner [for j in range(1, n + 1)] of row [i]. *)
Lemma fill_row (t : table) (i : nat) :
  (1 ≤ i ≤ m)%nat → rows_done x y gap_pen pen_map i t →
  (∃ t', for_each (range 1 n) (fill_cell x y gap_pen pen_map i) t = Returned t'
         ∧ rows_done x y gap_pen pen_map (i + 1) t'
         ∧ ∀ j, (1 ≤ j < 1 + n)%nat → pair_present x y pen_map i j)
  ∨ (for_each (range 1 n) (fill_cell x y gap_pen pen_map i) t = Raised KeyError
     ∧ ∃ j, (1 ≤ j < 1 + n)%nat ∧ pair_missing x y pen_map i j).
Proof.
  intros Hi Hdone.
  destruct (for_each_range (row_partly_done x y gap_pen pen_map i) (pair_present x y pen_map i) (pair_missing x y pen_map i)
              KeyError (fill_cell x y gap_pen pen_map i) n 1 t)
    as [(t' & Hf & [(Hsh & Hcol & Hrows) Hrow] & Hok) | Hbad].
  - split; [done |]. intros j' Hj'. replace j' with 0%nat by lia.
    destruct Hdone as (_ & Hcol & _). rewrite Hcol by lia.
    by rewrite opt_penalty_col0.
  - intros j t0 Hj [(Hsh & Hcol & Hrows) Hrow].
    destruct (fill_cell_spec t0 i j (opt (i - 1) (j - 1)) (opt (i - 1) j)
                (opt i (j - 1)) Hsh)
      as [(a & b & p & t' & Ha & Hb & Hp & Hfill & Hsh' & Hv & Hoth) | [Hfill Hmiss]];
      [lia | lia | apply Hrows; lia | apply Hrows; lia | apply Hrow; lia | |].
    + left. exists t'. split; [done |]. split; [| by exists a, b, p].
      split; [split; [done |] |].
      * split.
        -- intros i' Hi'. rewrite Hoth by (intros [= -> <-]; lia). by apply Hcol.
        -- intros i' j' Hi' Hj'. rewrite Hoth by (intros [= -> <-]; lia).
           by apply Hrows.
      * intros j' Hj'. destruct (decide (j' = j)) as [-> | Hne].
        -- rewrite Hv. f_equal.
           destruct i as [| i0]; [lia |]. destruct j as [| j0]; [lia |].
           rewrite opt_penalty_step. simpl in *. rewrite !Nat.sub_0_r in *.
           by rewrite (pen_at_present _ _ _ _ _ Ha Hb Hp).
        -- rewrite Hoth by congruence. apply Hrow. lia.
    + right. done.
  - left. exists t'. split; [done |]. split; [| done].
    split; [done |]. split; [done |].
    intros i' j' Hi' Hj'. destruct (decide (i' = i)) as [-> | Hne].
    + apply Hrow. lia.
    + apply Hrows; lia.
  - right. done.
Qed.

(** What [build_subproblems] does, whether or not the map is total. *)
Lemma build_subproblems_cases :
  (∃ t, build_subproblems x y gap_pen pen_map = Returned t
        ∧ has_shape m n t
        ∧ (∀ i j, (i ≤ m)%nat → (j ≤ n)%nat → cell t i j = Some (opt i j))
        ∧ ∀ i j, (1 ≤ i ≤ m)%nat → (1 ≤ j ≤ n)%nat → pair_present x y pen_map i j)
  ∨ (build_subproblems x y gap_pen pen_map = Raised KeyError
     ∧ ∃ i j, (1 ≤ i ≤ m)%nat ∧ (1 ≤ j ≤ n)%nat ∧ pair_missing x y pen_map i j).
Proof.
  unfold build_subproblems.
  destruct (seed_col0 (zero_table m n) (zero_table_shape m n))
    as (t1 & Hf1 & Hsh1 & Hcol1).
  rewrite Hf1. simpl.
  destruct (seed_row0 t1 Hsh1 Hcol1) as (t2 & Hf2 & Hsh2 & Hcol2 & Hrow2).
  rewrite Hf2. simpl.
  destruct (for_each_range (rows_done x y gap_pen pen_map)
              (λ i, ∀ j, (1 ≤ j < 1 + n)%nat → pair_present x y pen_map i j)
              (λ i, ∃ j, (1 ≤ j < 1 + n)%nat ∧ pair_missing x y pen_map i j)
              KeyError
              (λ t i, for_each (range 1 n) (fill_cell x y gap_pen pen_map i) t)
              m 1 t2)
    as [(t' & Hf & (Hsh & Hcol & Hrows) & Hok) | (Hf & i & Hi & j & Hj & Hmiss)].
  - split; [done |]. split; [done |].
    intros i' j' Hi' Hj'. replace i' with 0%nat by lia.
    rewrite Hrow2 by done. by rewrite opt_penalty_row0.
  - intros i t0 Hi Hdone. apply fill_row; [lia | done].
  - left. exists t'. split; [done |]. split; [done |]. split.
    + intros i j Hi Hj. apply Hrows; lia.
    + intros i j Hi Hj. apply Hok; lia.
  - right. split; [done |]. exists i, j. repeat split; try lia. done.
Qed.
End Builder.

(** ** The recurrence is the minimum over all alignments *)

Lemma snoc_eq_take {A : Type} (l w : list A) (a : A) (i : nat) :
  (i ≤ length w)%nat → l ++ [a] = take i w →
  ∃ i', i = S i' ∧ l = take i' w ∧ w !! i' = Some a.
Proof.
  intros Hi Heq.
  assert (Hlen : (length l + 1)%nat = i).
  { apply (f_equal length) in Heq.
    rewrite length_app, length_take in Heq. simpl in Heq. lia. }
  exists (length l).
  destruct (lookup_lt_is_Some_2 w (length l) ltac:(lia)) as [a' Ha'].
  assert (i = S (length l)) as -> by lia.
  rewrite (take_S_r _ _ _ Ha') in Heq.
  apply app_inj_tail in Heq as [Hl ->]. done.
Qed.

Lemma alignment_penalty_snoc (gap_pen : Z) (pen_map : gmap ascii (gmap ascii Z))
    (al : list column) (c : column) :
  alignment_penalty gap_pen pen_map (al ++ [c])
  = alignment_penalty gap_pen pen_map al + column_penalty gap_pen pen_map c.
Proof.
  unfold alignment_penalty. induction al as [| c' al IH]; simpl; [lia |].
  rewrite IH. lia.
Qed.

Lemma aligns_gaps_above (gap_pen : Z) (pen_map : gmap ascii (gmap ascii Z)) (l : str) :
  aligns [] l (map (λ b, (None, Some b)) l)
  ∧ alignment_penalty gap_pen pen_map (map (λ b, (None, Some b)) l)
    = Z.of_nat (length l) * gap_pen.
Proof.
  unfold aligns, alignment_penalty.
  induction l as [| b l [[IH1 IH2] IH3]]; [done |]. simpl.
  repeat split; [exact IH1 | f_equal; exact IH2 | rewrite IH3; lia].
Qed.

Lemma aligns_gaps_below (gap_pen : Z) (pen_map : gmap ascii (gmap ascii Z)) (l : str) :
  aligns l [] (map (λ a, (Some a, None)) l)
  ∧ alignment_penalty gap_pen pen_map (map (λ a, (Some a, None)) l)
    = Z.of_nat (length l) * gap_pen.
Proof.
  unfold aligns, alignment_penalty.
  induction l as [| a l [[IH1 IH2] IH3]]; [done |]. simpl.
  repeat split; [f_equal; exact IH1 | exact IH2 | rewrite IH3; lia].
Qed.

Section Optimality.
Variables (x y : str) (gap_pen : Z) (pen_map : gmap ascii (gmap ascii Z)).
Abbreviation m := (length x).
Abbreviation n := (length y).
Abbreviation opt := (opt_penalty x y gap_pen pen_map).
Abbreviation cost := (alignment_penalty gap_pen pen_map).

(** No alignment of two prefixes is cheaper than the recurrence. *)
Lemma opt_penalty_lower_bound (al : list column) :
  0 ≤ gap_pen →
  ∀ i j, (i ≤ m)%nat → (j ≤ n)%nat →
         aligns (take i x) (take j y) al → opt i j ≤ cost al.
Proof.
  intros Hg. induction al as [| c al IH] using rev_ind; intros i j Hi Hj [Hx Hy].
  - simpl in *.
    assert (i = 0%nat) as ->.
    { apply (f_equal length) in Hx. rewrite length_take in Hx. simpl in Hx. lia. }
    assert (j = 0%nat) as ->.
    { apply (f_equal length) in Hy. rewrite length_take in Hy. simpl in Hy. lia. }
    done.
  - rewrite alignment_penalty_snoc. rewrite omap_app in Hx, Hy.
    destruct c as [[a |] [b |]]; simpl in *; rewrite ?app_nil_r in *.
    + apply snoc_eq_take in Hx as (i' & -> & Hx & Ha); [| done].
      apply snoc_eq_take in Hy as (j' & -> & Hy & Hb); [| done].
      pose proof (IH i' j' ltac:(lia) ltac:(lia) (conj Hx Hy)).
      pose proof (opt_penalty_diag x y gap_pen pen_map i' j') as Hd.
      unfold pen_at in Hd. rewrite Ha, Hb in Hd. lia.
    + apply snoc_eq_take in Hx as (i' & -> & Hx & Ha); [| done].
      pose proof (IH i' j ltac:(lia) Hj (conj Hx Hy)).
      pose proof (opt_penalty_up x y gap_pen pen_map i' j). lia.
    + apply snoc_eq_take in Hy as (j' & -> & Hy & Hb); [| done].
      pose proof (IH i j' Hi ltac:(lia) (conj Hx Hy)).
      pose proof (opt_penalty_left x y gap_pen pen_map i j'). lia.
    + pose proof (IH i j Hi Hj (conj Hx Hy)). lia.
Qed.

(** Some alignment of the two prefixes costs exactly the recurrence. *)
Lemma opt_penalty_attained (i j : nat) :
  (i ≤ m)%nat → (j ≤ n)%nat →
  ∃ al, aligns (take i x) (take j y) al ∧ cost al = opt i j.
Proof.
  revert j. induction i as [| i IHi]; intros j Hi Hj.
  - exists (map (λ b, (None, Some b)) (take j y)).
    destruct (aligns_gaps_above gap_pen pen_map (take j y)) as [Hal Hc].
    split; [done |]. rewrite Hc, opt_penalty_row0, length_take. f_equal. lia.
  - induction j as [| j IHj].
    + exists (map (λ a, (Some a, None)) (take (S i) x)).
      destruct (aligns_gaps_below gap_pen pen_map (take (S i) x)) as [Hal Hc].
      split; [done |]. rewrite Hc, opt_penalty_col0, length_take. f_equal. lia.
    + destruct (lookup_lt_is_Some_2 x i ltac:(lia)) as [a Ha].
      destruct (lookup_lt_is_Some_2 y j ltac:(lia)) as [b Hb].
      rewrite opt_penalty_step.
      destruct (min3_cases (opt i j + pen_at x y pen_map i j)
                  (opt i (S j) + gap_pen) (opt (S i) j + gap_pen))
        as [[-> | [-> | ->]] _].
      * destruct (IHi j ltac:(lia) ltac:(lia)) as (al & [Hx Hy] & Hc).
        exists (al ++ [(Some a, Some b)]). split.
        -- split; rewrite omap_app; simpl.
           ++ by rewrite Hx, (take_S_r _ _ _ Ha).
           ++ by rewrite Hy, (take_S_r _ _ _ Hb).
        -- rewrite alignment_penalty_snoc, Hc. simpl.
           unfold pen_at. by rewrite Ha, Hb.
      * destruct (IHi (S j) ltac:(lia) Hj) as (al & [Hx Hy] & Hc).
        exists (al ++ [(Some a, None)]). split.
        -- split; rewrite omap_app; simpl.
           ++ by rewrite Hx, (take_S_r _ _ _ Ha).
           ++ by rewrite Hy, app_nil_r.
        -- by rewrite alignment_penalty_snoc, Hc.
      * destruct (IHj ltac:(lia)) as (al & [Hx Hy] & Hc).
        exists (al ++ [(None, Some b)]). split.
        -- split; rewrite omap_app; simpl.
           ++ by rewrite Hx, app_nil_r.
           ++ by rewrite Hy, (take_S_r _ _ _ Hb).
        -- by rewrite alignment_penalty_snoc, Hc.
Qed.
End Optimality.

(** Under a total map no pair is missing. *)
Lemma pen_total_no_missing (x y : str) (pen_map : gmap ascii (gmap ascii Z)) (i j : nat) :
  pen_total pen_map x y → ¬ pair_missing x y pen_map i j.
Proof.
  intros Htot (a & b & Ha & Hb & Hmiss).
  destruct (Htot a b) as [p Hp].
  - by eapply list_elem_of_lookup_2.
  - by eapply list_elem_of_lookup_2.
  - congruence.
Qed.

(** The table of a total map: every cell is the recurrence. *)
Lemma build_subproblems_total (x y : str) (gap_pen : Z)
    (pen_map : gmap ascii (gmap ascii Z)) :
  pen_total pen_map x y →
  ∃ t, build_subproblems x y gap_pen pen_map = Returned t
       ∧ has_shape (length x) (length y) t
       ∧ ∀ i j, (i ≤ length x)%nat → (j ≤ length y)%nat →
                cell t i j = Some (opt_penalty x y gap_pen pen_map i j).
Proof.
  intros Htot.
  destruct (build_subproblems_cases x y gap_pen pen_map)
    as [(t & Hb & Hsh & Hcells & _) | (_ & i & j & _ & _ & Hmiss)].
  - by exists t.
  - by apply pen_total_no_missing in Hmiss.
Qed.

(** With non-negative penalties the recurrence is non-negative. *)
Lemma opt_penalty_nonneg (x y : str) (gap_pen : Z)
    (pen_map : gmap ascii (gmap ascii Z)) (i j : nat) :
  0 ≤ gap_pen → pen_nonneg pen_map x y → 0 ≤ opt_penalty x y gap_pen pen_map i j.
Proof.
  intros Hg Hnn.
  assert (Hw : ∀ i j, 0 ≤ pen_at x y pen_map i j).
  { intros i0 j0. unfold pen_at, penalty.
    destruct (x !! i0) as [a |] eqn:Ha; [| done].
    destruct (y !! j0) as [b |] eqn:Hb; [| done].
    destruct (pen_lookup pen_map a b) as [p | |] eqn:Hp; [| done | done].
    eapply Hnn; [| | exact Hp]; by eapply list_elem_of_lookup_2. }
  revert j. induction i as [| i IHi]; intros j.
  - rewrite opt_penalty_row0. lia.
  - induction j as [| j IHj].
    + rewrite opt_penalty_col0. lia.
    + rewrite opt_penalty_step. unfold min3.
      pose proof (IHi j). pose proof (IHi (S j)). pose proof (Hw i j). lia.
Qed.

(** A symbol pair of [x] and [y] is the pair met at some cell. *)
Lemma pair_met_at_cell (x y : str) (a b : ascii) :
  a ∈ x → b ∈ y →
  ∃ i j, (1 ≤ i ≤ length x)%nat ∧ (1 ≤ j ≤ length y)%nat
         ∧ x !! (i - 1)%nat = Some a ∧ y !! (j - 1)%nat = Some b.
Proof.
  intros [i Hi]%list_elem_of_lookup_1 [j Hj]%list_elem_of_lookup_1.
  pose proof (lookup_lt_Some _ _ _ Hi). pose proof (lookup_lt_Some _ _ _ Hj).
  exists (S i), (S j). simpl. rewrite !Nat.sub_0_r. repeat split; (lia || done).
Qed.

(** A missing entry for a pair of [x] and [y] stops the table builder with
    [KeyError]. *)
Lemma build_subproblems_missing (x y : str) (gap_pen : Z)
    (pen_map : gmap ascii (gmap ascii Z)) (a b : ascii) :
  a ∈ x → b ∈ y → pen_lookup pen_map a b = Raised KeyError →
  build_subproblems x y gap_pen pen_map = Raised KeyError.
Proof.
  intros Ha Hb Hmiss.
  destruct (build_subproblems_cases x y gap_pen pen_map)
    as [(t & _ & _ & _ & Hpres) | [Hraised _]]; [| done].
  destruct (pair_met_at_cell x y a b Ha Hb) as (i & j & Hi & Hj & Hxa & Hyb).
  destruct (Hpres i j Hi Hj) as (a' & b' & p & Hxa' & Hyb' & Hp). congruence.
Qed.

(** ** The cost table: claims on the table builder *)

(** C1.  For a gap penalty [>= 0] and a penalty map that is total over the
    symbol pairs of X and Y, the table builder returns a table whose cell
    [(m, n)] is the minimum, over all alignments of X and Y, of the sum of
    the per-column penalties (the substitution penalty of a column with two
    symbols, the gap penalty of a column with a gap).  Neither the
    non-emptiness of X and Y nor the sign of the substitution penalties is
    needed. *)
Theorem table_final_cell_is_minimum (x y : str) (gap_pen : Z)
    (pen_map : gmap ascii (gmap ascii Z)) :
  0 ≤ gap_pen → pen_total pen_map x y →
  ∃ t v, build_subproblems x y gap_pen pen_map = Returned t
         ∧ cell t (length x) (length y) = Some v
         ∧ (∃ al, aligns x y al ∧ alignment_penalty gap_pen pen_map al = v)
         ∧ (∀ al, aligns x y al → v ≤ alignment_penalty gap_pen pen_map al).
Proof.
  intros Hg Htot.
  destruct (build_subproblems_total x y gap_pen pen_map Htot) as (t & Hb & _ & Hcells).
  exists t, (opt_penalty x y gap_pen pen_map (length x) (length y)).
  split; [done |]. split; [by apply Hcells |]. split.
  - destruct (opt_penalty_attained x y gap_pen pen_map (length x) (length y))
      as (al & Hal & Hc); [done | done |].
    rewrite !firstn_all in Hal. by exists al.
  - intros al Hal.
    apply opt_penalty_lower_bound; [done | done | done |].
    by rewrite !firstn_all.
Qed.

(** C5.  For every valid input (X and Y non-empty, gap penalty [>= 0], a
    non-empty penalty map total over the pairs of X and Y, with non-negative
    entries) the completed table has [cell(i,0) = i * gap_pen] for
    [0 <= i <= m], [cell(0,j) = j * gap_pen] for [0 <= j <= n], every cell
    with [i, j >= 1] equal to the minimum of its three candidates, and only
    non-negative cells. *)
Theorem table_invariant (x y : str) (gap_pen : Z)
    (pen_map : gmap ascii (gmap ascii Z)) :
  x ≠ [] → y ≠ [] → 0 ≤ gap_pen → pen_map ≠ ∅ →
  pen_total pen_map x y → pen_nonneg pen_map x y →
  ∃ t, build_subproblems x y gap_pen pen_map = Returned t
       ∧ has_shape (length x) (length y) t
       ∧ (∀ i, (i ≤ length x)%nat → cell t i 0 = Some (Z.of_nat i * gap_pen))
       ∧ (∀ j, (j ≤ length y)%nat → cell t 0 j = Some (Z.of_nat j * gap_pen))
       ∧ (∀ i j, (1 ≤ i ≤ length x)%nat → (1 ≤ j ≤ length y)%nat →
            ∃ a b p d u l,
              x !! (i - 1)%nat = Some a ∧ y !! (j - 1)%nat = Some b
              ∧ pen_lookup pen_map a b = Returned p
              ∧ cell t (i - 1) (j - 1) = Some d
              ∧ cell t (i - 1) j = Some u
              ∧ cell t i (j - 1) = Some l
              ∧ cell t i j = Some (min3 (d + p) (u + gap_pen) (l + gap_pen)))
       ∧ (∀ i j, (i ≤ length x)%nat → (j ≤ length y)%nat →
            ∃ v, cell t i j = Some v ∧ 0 ≤ v).
Proof.
  intros _ _ Hg _ Htot Hnn.
  destruct (build_subproblems_cases x y gap_pen pen_map)
    as [(t & Hb & Hsh & Hcells & Hpres) | (_ & i & j & _ & _ & Hmiss)];
    [| by apply pen_total_no_missing in Hmiss].
  exists t. split; [done |]. split; [done |]. split; [| split; [| split]].
  - intros i Hi. rewrite Hcells by lia. by rewrite opt_penalty_col0.
  - intros j Hj. rewrite Hcells by lia. by rewrite opt_penalty_row0.
  - intros i j Hi Hj. destruct (Hpres i j Hi Hj) as (a & b & p & Ha & Hb' & Hp).
    exists a, b, p. eexists _, _, _.
    split; [done |]. split; [done |]. split; [done |].
    split; [apply Hcells; lia |]. split; [apply Hcells; lia |].
    split; [apply Hcells; lia |].
    rewrite Hcells by lia. f_equal.
    destruct i as [| i0]; [lia |]. destruct j as [| j0]; [lia |].
    rewrite opt_penalty_step. simpl in *. rewrite !Nat.sub_0_r in *.
    by rewrite (pen_at_present _ _ _ _ _ _ _ _ Ha Hb' Hp).
  - intros i j Hi Hj. eexists. split; [by apply Hcells |].
    by apply opt_penalty_nonneg.
Qed.

(** ** The backtracking loop *)

Lemma select_case_diag (r r1 r2 : Z) : r = r1 → select_case r r1 r2 = Case1.
Proof. intros ->. unfold select_case. by rewrite Z.eqb_refl. Qed.

Lemma select_case_up (r r1 r2 : Z) : r ≠ r1 → r = r2 → select_case r r1 r2 = Case2.
Proof.
  intros Hne ->. unfold select_case.
  apply Z.eqb_neq in Hne. by rewrite Hne, Z.eqb_refl.
Qed.

Lemma select_case_left (r r1 r2 : Z) : r ≠ r1 → r ≠ r2 → select_case r r1 r2 = Case3.
Proof.
  intros H1 H2. unfold select_case.
  apply Z.eqb_neq in H1, H2. by rewrite H1, H2.
Qed.

Section Backtracking.
Variables (x y : str) (gap_pen : Z) (pen_map : gmap ascii (gmap ascii Z))
          (dp : table).
Abbreviation body := (loop_body x y gap_pen pen_map dp).
Abbreviation loop := (λ fuel, while_loop fuel x y gap_pen pen_map dp).

(** One iteration, once its six reads have succeeded. *)
Lemma loop_body_reads (st : state) (a b : ascii) (p d u r : Z) :
  x !! (i_ st - 1)%nat = Some a → y !! (j_ st - 1)%nat = Some b →
  cell dp (i_ st - 1) (j_ st - 1) = Some d →
  pen_lookup pen_map a b = Returned p →
  cell dp (i_ st - 1) (j_ st) = Some u →
  cell dp (i_ st) (j_ st) = Some r →
  body st =
    match select_case r (d + p) (u + gap_pen) with
    | Case1 => Raised TypeError
    | Case2 => Returned (State (a :: sx st) (gap_marker :: sy st)
                               (i_ st - 1) (j_ st))
    | Case3 => Returned (State (gap_marker :: sx st) (b :: sy st)
                               (i_ st) (j_ st - 1))
    end.
Proof.
  intros Ha Hb Hd Hp Hu Hr. unfold loop_body.
  rewrite (str_get_lookup _ _ _ Ha), (str_get_lookup _ _ _ Hb). simpl.
  rewrite (get_cell_cell _ _ _ _ Hd). simpl. rewrite Hp. simpl.
  rewrite (get_cell_cell _ _ _ _ Hu), (get_cell_cell _ _ _ _ Hr). simpl.
  by destruct (select_case r (d + p) (u + gap_pen)).
Qed.

(** An iteration that completes took the up-gap or the left-gap step. *)
Lemma loop_body_Returned (st st' : state) :
  body st = Returned st' →
  (∃ a, st' = State (a :: sx st) (gap_marker :: sy st) (i_ st - 1) (j_ st))
  ∨ (∃ b, st' = State (gap_marker :: sx st) (b :: sy st) (i_ st) (j_ st - 1)).
Proof.
  unfold loop_body.
  intros (a & _ & H)%bind_Returned. apply bind_Returned in H as (b & _ & H).
  apply bind_Returned in H as (d & _ & H). apply bind_Returned in H as (p & _ & H).
  apply bind_Returned in H as (u & _ & H). apply bind_Returned in H as (r & _ & H).
  destruct (select_case r (d + p) (u + gap_pen)); simpl in H.
  - discriminate.
  - injection H as <-. left. by exists a.
  - injection H as <-. right. by exists b.
Qed.

Lemma while_loop_unfold (fuel : nat) (st : state) :
  loop fuel st =
    if (1 <=? i_ st)%nat && (1 <=? j_ st)%nat then
      match fuel with
      | O => NoFuel
      | S fuel' => st' ← body st; loop fuel' st'
      end
    else Returned st.
Proof. by destruct fuel. Qed.

(** [len(x) + len(y)] iterations are enough: the bound is never hit. *)
Lemma while_loop_fuel (fuel : nat) (st : state) :
  (i_ st + j_ st ≤ fuel)%nat → loop fuel st ≠ NoFuel.
Proof.
  revert st. induction fuel as [| fuel IH]; intros st Hfuel;
    rewrite while_loop_unfold;
    destruct (1 <=? i_ st)%nat eqn:Hi; [| done | | done];
    destruct (1 <=? j_ st)%nat eqn:Hj; [| done | | done];
    apply Nat.leb_le in Hi, Hj; [lia |]. simpl.
  destruct (body st) as [st' | e |] eqn:Hbody; simpl; [| done |].
  - apply IH.
    destruct (loop_body_Returned st st' Hbody) as [[a ->] | [b ->]]; simpl; lia.
  - exfalso. revert Hbody.
    unfold loop_body, str_get, get_cell, pen_lookup, str_sub_int, mbind, result_bind.
    repeat case_match; discriminate.
Qed.

(** The rule of the [while]: an invariant of the iterations that complete
    holds at the exit, where the loop condition is false. *)
Lemma while_loop_exit (Q : state → Prop) (fuel : nat) (st st' : state) :
  (∀ st st', (1 ≤ i_ st)%nat → (1 ≤ j_ st)%nat → Q st →
             body st = Returned st' → Q st') →
  Q st → loop fuel st = Returned st' →
  Q st' ∧ (i_ st' = 0%nat ∨ j_ st' = 0%nat).
Proof.
  intros Hstep. revert st.
  assert (Hexit : ∀ st, Q st →
            (if (1 <=? i_ st)%nat && (1 <=? j_ st)%nat
             then (NoFuel : result state) else Returned st) = Returned st' →
            Q st' ∧ (i_ st' = 0%nat ∨ j_ st' = 0%nat)).
  { intros st HQ.
    destruct (1 <=? i_ st)%nat eqn:Hi, (1 <=? j_ st)%nat eqn:Hj; simpl;
      [done | | |]; intros [= <-];
      apply Nat.leb_gt in Hi || apply Nat.leb_gt in Hj; (split; [done | lia]). }
  induction fuel as [| fuel IH]; intros st HQ; rewrite while_loop_unfold.
  - by apply Hexit.
  - destruct ((1 <=? i_ st)%nat && (1 <=? j_ st)%nat) eqn:Hc.
    + apply andb_true_iff in Hc as [Hi%Nat.leb_le Hj%Nat.leb_le].
      intros (st1 & Hbody & Hrest)%bind_Returned. apply (IH st1); eauto.
    + intros Hret. apply (Hexit st HQ). by rewrite Hc.
Qed.

(** Whatever table it is given, the reconstructor never returns two
    strings of equal length for non-empty [x] and [y]: an iteration that
    completes leaves one index at least 1, and the padding after the loop
    extends one string only. *)
Lemma reconstruct_lengths_differ (out : list str) :
  x ≠ [] → y ≠ [] →
  _reconstruct_optimal_alignment x y gap_pen pen_map dp = Returned out →
  ∃ sx' sy', out = [sx'; sy'] ∧ length sx' ≠ length sy'.
Proof.
  intros Hx Hy. unfold _reconstruct_optimal_alignment.
  intros (st & Hloop & [= <-])%bind_Returned.
  apply (while_loop_exit
           (λ st, length (sx st) = length (sy st) ∧ (1 ≤ i_ st + j_ st)%nat))
    in Hloop as [[Hlen Hpos] Hexit].
  - unfold pad_and_return.
    destruct (decide (i_ st ≠ 0%nat)) as [Hi | Hi].
    + eexists _, _. split; [done |]. rewrite length_app, length_replicate. lia.
    + destruct (decide (j_ st ≠ 0%nat)) as [Hj | Hj]; [| lia].
      eexists _, _. split; [done |]. rewrite length_app, length_replicate. lia.
  - intros st0 st1 Hi Hj [Hlen Hpos] Hbody.
    destruct (loop_body_Returned st0 st1 Hbody) as [[a ->] | [b ->]]; simpl;
      split; (lia || congruence).
  - simpl. split; [done |]. destruct x; [done |]. simpl. lia.
Qed.
End Backtracking.

(** ** The public operation *)

(** The three checks of lines 55-63 return [[]]. *)
Lemma sequence_alignment_rejected (x y : str) (gap_pen : Z)
    (pen_map : gmap ascii (gmap ascii Z)) :
  x = [] ∨ y = [] ∨ gap_pen < 0 ∨ pen_map = ∅ →
  sequence_alignment x y gap_pen pen_map = Returned [].
Proof.
  unfold sequence_alignment. intros Hviol.
  destruct (bool_decide (x = []) || bool_decide (y = [])) eqn:Hxy; [done |].
  apply orb_false_iff in Hxy as [Hx%bool_decide_eq_false Hy%bool_decide_eq_false].
  destruct (gap_pen <? 0) eqn:Hg; [done |]. apply Z.ltb_ge in Hg.
  destruct (bool_decide (pen_map = ∅)) eqn:Hp; [done |].
  apply bool_decide_eq_false in Hp.
  destruct Hviol as [? | [? | [? | ?]]]; (done || lia).
Qed.

(** Past the checks, the table is built and handed to the reconstructor. *)
Lemma sequence_alignment_accepted (x y : str) (gap_pen : Z)
    (pen_map : gmap ascii (gmap ascii Z)) :
  x ≠ [] → y ≠ [] → 0 ≤ gap_pen → pen_map ≠ ∅ →
  sequence_alignment x y gap_pen pen_map
  = (subproblems ← build_subproblems x y gap_pen pen_map;
     _reconstruct_optimal_alignment x y gap_pen pen_map subproblems).
Proof.
  intros Hx Hy Hg Hp. unfold sequence_alignment.
  rewrite (bool_decide_eq_false_2 _ Hx), (bool_decide_eq_false_2 _ Hy). simpl.
  apply Z.ltb_ge in Hg. rewrite Hg.
  by rewrite (bool_decide_eq_false_2 _ Hp).
Qed.

(** The checks are the only way to the empty result: an input they accept,
    whatever the sign of its substitution penalties, never yields [[]]. *)
Lemma sequence_alignment_empty_iff (x y : str) (gap_pen : Z)
    (pen_map : gmap ascii (gmap ascii Z)) :
  sequence_alignment x y gap_pen pen_map = Returned []
  ↔ x = [] ∨ y = [] ∨ gap_pen < 0 ∨ pen_map = ∅.
Proof.
  split; [| apply sequence_alignment_rejected].
  intros Hret.
  destruct (decide (x = [])) as [| Hx]; [by left |].
  destruct (decide (y = [])) as [| Hy]; [by right; left |].
  destruct (decide (gap_pen < 0)) as [| Hg]; [by right; right; left |].
  destruct (decide (pen_map = ∅)) as [| Hp]; [by right; right; right |].
  rewrite sequence_alignment_accepted in Hret by (done || lia).
  apply bind_Returned in Hret as (t & _ & Hrec).
  apply reconstruct_lengths_differ in Hrec as (? & ? & [=] & _); done.
Qed.

(** The operation always terminates: it returns or raises. *)
Lemma sequence_alignment_terminates (x y : str) (gap_pen : Z)
    (pen_map : gmap ascii (gmap ascii Z)) :
  sequence_alignment x y gap_pen pen_map ≠ NoFuel.
Proof.
  unfold sequence_alignment. repeat case_match; try done.
  destruct (build_subproblems_cases x y gap_pen pen_map)
    as [(t & -> & _) | [-> _]]; [| done]. simpl.
  unfold _reconstruct_optimal_alignment.
  destruct (while_loop _ _ _ _ _ _ _) eqn:Hloop; simpl; try done.
  by apply while_loop_fuel in Hloop.
Qed.

(** No input makes the operation return an alignment: what it returns is
    [[]] or two strings of different lengths. *)
Lemma sequence_alignment_never_aligned (x y : str) (gap_pen : Z)
    (pen_map : gmap ascii (gmap ascii Z)) (out : list str) :
  sequence_alignment x y gap_pen pen_map = Returned out →
  out = [] ∨ ∃ sx' sy', out = [sx'; sy'] ∧ length sx' ≠ length sy'.
Proof.
  intros Hret.
  destruct (decide (x = [] ∨ y = [] ∨ gap_pen < 0 ∨ pen_map = ∅)) as [Hviol | Hok].
  - rewrite (sequence_alignment_rejected _ _ _ _ Hviol) in Hret.
    injection Hret as <-. by left.
  - right. rewrite sequence_alignment_accepted in Hret.
    + apply bind_Returned in Hret as (t & _ & Hrec).
      apply reconstruct_lengths_differ in Hrec; [done | |]; intros ->; apply Hok; auto.
    + intros ->. apply Hok. auto.
    + intros ->. apply Hok. auto.
    + destruct (decide (gap_pen < 0)); [exfalso; apply Hok; auto | lia].
    + intros ->. apply Hok. auto.
Qed.

(** The diagonal branch cannot complete: it stops at [y -= 1]. *)
Lemma loop_body_diag_raises (x y : str) (gap_pen : Z)
    (pen_map : gmap ascii (gmap ascii Z)) (dp : table) (st : state)
    (a b : ascii) (p d u : Z) :
  x !! (i_ st - 1)%nat = Some a → y !! (j_ st - 1)%nat = Some b →
  cell dp (i_ st - 1) (j_ st - 1) = Some d →
  pen_lookup pen_map a b = Returned p →
  cell dp (i_ st - 1) (j_ st) = Some u →
  cell dp (i_ st) (j_ st) = Some (d + p) →
  loop_body x y gap_pen pen_map dp st = Raised TypeError.
Proof.
  intros Ha Hb Hd Hp Hu Hr.
  rewrite (loop_body_reads _ _ _ _ _ _ _ _ _ _ _ _ Ha Hb Hd Hp Hu Hr).
  by rewrite select_case_diag.
Qed.

(** ** Backtracking on the table of the builder *)

Lemma select_case_inv (r r1 r2 : Z) :
  match select_case r r1 r2 with
  | Case1 => r = r1
  | Case2 => r ≠ r1 ∧ r = r2
  | Case3 => r ≠ r1 ∧ r ≠ r2
  end.
Proof.
  unfold select_case.
  destruct (r =? r1) eqn:H1; [by apply Z.eqb_eq |]. apply Z.eqb_neq in H1.
  destruct (r =? r2) eqn:H2; [by apply Z.eqb_eq in H2 |]. by apply Z.eqb_neq in H2.
Qed.

(** The rule of the [while] for an exception: it comes from an iteration
    started where the invariant and the loop condition hold. *)
Lemma while_loop_raised (x y : str) (gap_pen : Z) (pen_map : gmap ascii (gmap ascii Z))
    (dp : table) (Q : state → Prop) (fuel : nat) (st : state) (e : exn) :
  (∀ st st', (1 ≤ i_ st)%nat → (1 ≤ j_ st)%nat → Q st →
             loop_body x y gap_pen pen_map dp st = Returned st' → Q st') →
  Q st → while_loop fuel x y gap_pen pen_map dp st = Raised e →
  ∃ st0, Q st0 ∧ (1 ≤ i_ st0)%nat ∧ (1 ≤ j_ st0)%nat
         ∧ loop_body x y gap_pen pen_map dp st0 = Raised e.
Proof.
  intros Hstep. revert st.
  induction fuel as [| fuel IH]; intros st HQ; rewrite while_loop_unfold;
    destruct ((1 <=? i_ st)%nat && (1 <=? j_ st)%nat) eqn:Hc; try done.
  apply andb_true_iff in Hc as [Hi%Nat.leb_le Hj%Nat.leb_le].
  destruct (loop_body x y gap_pen pen_map dp st) as [st1 | e1 |] eqn:Hbody; simpl.
  - intros Hrest. apply (IH st1); eauto.
  - intros [= ->]. by exists st.
  - done.
Qed.

Section BacktrackingOnBuiltTable.
Variables (x y : str) (gap_pen : Z) (pen_map : gmap ascii (gmap ascii Z))
          (t : table).
Hypothesis Htotal : pen_total pen_map x y.
Hypothesis Hcells : ∀ i j, (i ≤ length x)%nat → (j ≤ length y)%nat →
                           cell t i j = Some (opt_penalty x y gap_pen pen_map i j).
Abbreviation opt := (opt_penalty x y gap_pen pen_map).

(** All gaps is one way to align two prefixes. *)
Lemma opt_penalty_all_gaps (i j : nat) : opt i j ≤ Z.of_nat (i + j) * gap_pen.
Proof.
  induction i as [| i IH].
  - rewrite opt_penalty_row0. simpl. lia.
  - pose proof (opt_penalty_up x y gap_pen pen_map i j). lia.
Qed.

(** Longer prefixes cost at most the gaps that extend the shorter ones. *)
Lemma opt_penalty_extend (i j di dj : nat) :
  opt (i + di) (j + dj) ≤ opt i j + Z.of_nat (di + dj) * gap_pen.
Proof.
  induction di as [| di IHi].
  - rewrite Nat.add_0_r. induction dj as [| dj IHj].
    + rewrite Nat.add_0_r. simpl. lia.
    + replace (j + S dj)%nat with (S (j + dj)) by lia.
      pose proof (opt_penalty_left x y gap_pen pen_map i (j + dj)). lia.
  - replace (i + S di)%nat with (S (i + di)) by lia.
    pose proof (opt_penalty_up x y gap_pen pen_map (i + di) (j + dj)). lia.
Qed.

(** A negative entry for a pair of X and Y makes the optimum cheaper than
    the alignment made of gaps only. *)
Lemma opt_penalty_below_all_gaps (a b : ascii) (p : Z) :
  0 ≤ gap_pen → a ∈ x → b ∈ y → pen_lookup pen_map a b = Returned p → p < 0 →
  opt (length x) (length y) < Z.of_nat (length x + length y) * gap_pen.
Proof.
  intros Hg [i Hi]%list_elem_of_lookup_1 [j Hj]%list_elem_of_lookup_1 Hp Hneg.
  pose proof (lookup_lt_Some _ _ _ Hi) as Hil.
  pose proof (lookup_lt_Some _ _ _ Hj) as Hjl.
  pose proof (opt_penalty_diag x y gap_pen pen_map i j) as Hd.
  rewrite (pen_at_present _ _ _ _ _ _ _ _ Hi Hj Hp) in Hd.
  pose proof (opt_penalty_all_gaps i j) as Hij.
  pose proof (opt_penalty_extend (S i) (S j) (length x - S i) (length y - S j)) as Hext.
  replace (S i + (length x - S i))%nat with (length x) in Hext by lia.
  replace (S j + (length y - S j))%nat with (length y) in Hext by lia.
  replace (Z.of_nat (length x + length y))
    with (Z.of_nat (i + j) + 2 + Z.of_nat (length x - S i + (length y - S j))) by lia.
  nia.
Qed.

(** One iteration on the table of the builder: every read succeeds. *)
Lemma loop_body_on_built_table (st : state) :
  (1 ≤ i_ st ≤ length x)%nat → (1 ≤ j_ st ≤ length y)%nat →
  ∃ a b,
    x !! (i_ st - 1)%nat = Some a ∧ y !! (j_ st - 1)%nat = Some b
    ∧ loop_body x y gap_pen pen_map t st =
        match select_case (opt (i_ st) (j_ st))
                (opt (i_ st - 1) (j_ st - 1) + pen_at x y pen_map (i_ st - 1) (j_ st - 1))
                (opt (i_ st - 1) (j_ st) + gap_pen) with
        | Case1 => Raised TypeError
        | Case2 => Returned (State (a :: sx st) (gap_marker :: sy st)
                                   (i_ st - 1) (j_ st))
        | Case3 => Returned (State (gap_marker :: sx st) (b :: sy st)
                                   (i_ st) (j_ st - 1))
        end.
Proof.
  intros Hi Hj.
  destruct (lookup_lt_is_Some_2 x (i_ st - 1) ltac:(lia)) as [a Ha].
  destruct (lookup_lt_is_Some_2 y (j_ st - 1) ltac:(lia)) as [b Hb].
  destruct (Htotal a b) as [p Hp]; [by eapply list_elem_of_lookup_2 .. |].
  exists a, b. split; [done |]. split; [done |].
  rewrite (pen_at_present _ _ _ _ _ _ _ _ Ha Hb Hp).
  apply loop_body_reads; try done; apply Hcells; lia.
Qed.

Lemma on_gap_path_step (st st' : state) :
  (1 ≤ i_ st)%nat → (1 ≤ j_ st)%nat → on_gap_path x y gap_pen pen_map st →
  loop_body x y gap_pen pen_map t st = Returned st' → on_gap_path x y gap_pen pen_map st'.
Proof.
  intros Hi Hj (Hil & Hjl & Hlen & Hopt) Hbody.
  destruct (loop_body_on_built_table st) as (a & b & _ & _ & Heq); [lia | lia |].
  rewrite Heq in Hbody.
  destruct st as [sx0 sy0 i j]. simpl in *.
  destruct i as [| i]; [lia |]. destruct j as [| j]; [lia |].
  simpl in Hbody. rewrite !Nat.sub_0_r in Hbody.
  pose proof (select_case_inv (opt (S i) (S j))
                (opt i j + pen_at x y pen_map i j) (opt i (S j) + gap_pen)) as Hsel.
  pose proof (opt_penalty_step x y gap_pen pen_map i j) as Hmin.
  unfold min3 in Hmin.
  destruct (select_case _ _ _); [done | |]; injection Hbody as <-;
    unfold on_gap_path; cbn [i_ j_ sx sy length]; rewrite ?Nat.sub_0_r;
    (split; [lia |]); (split; [lia |]); (split; [lia |]); lia.
Qed.
End BacktrackingOnBuiltTable.

(** With a negative entry for a pair of X and Y, an input that passes the
    checks and has a total map always ends in the [TypeError] of the
    diagonal branch: the optimum is then cheaper than any path of gap steps,
    so the backtracking cannot reach a border by gap steps alone. *)
Lemma negative_entry_raises_TypeError (x y : str) (gap_pen : Z)
    (pen_map : gmap ascii (gmap ascii Z)) (a b : ascii) (p : Z) :
  0 ≤ gap_pen → pen_total pen_map x y →
  a ∈ x → b ∈ y → pen_lookup pen_map a b = Returned p → p < 0 →
  sequence_alignment x y gap_pen pen_map = Raised TypeError.
Proof.
  intros Hg Htot Ha Hb Hp Hneg.
  assert (x ≠ []) as Hx by (intros ->; by apply not_elem_of_nil in Ha).
  assert (y ≠ []) as Hy by (intros ->; by apply not_elem_of_nil in Hb).
  assert (pen_map ≠ ∅) as Hne.
  { intros ->. unfold pen_lookup in Hp. by rewrite lookup_empty in Hp. }
  rewrite sequence_alignment_accepted by done.
  destruct (build_subproblems_total x y gap_pen pen_map Htot) as (t & -> & _ & Hcells).
  simpl. unfold _reconstruct_optimal_alignment.
  pose proof (on_gap_path_step x y gap_pen pen_map t Htot Hcells) as Hstep.
  assert (Hinit : on_gap_path x y gap_pen pen_map (State [] [] (length x) (length y))).
  { unfold on_gap_path. simpl. repeat split; lia. }
  destruct (while_loop _ _ _ _ _ _ _) as [st | e |] eqn:Hloop; simpl.
  - exfalso.
    apply (while_loop_exit _ _ _ _ _ _ _ _ _ Hstep Hinit) in Hloop
      as [(Hil & Hjl & Hlen & Hopt) Hexit].
    pose proof (opt_penalty_below_all_gaps x y gap_pen pen_map a b p Hg Ha Hb Hp Hneg)
      as Hlt.
    assert (opt_penalty x y gap_pen pen_map (i_ st) (j_ st)
            = Z.of_nat (i_ st + j_ st) * gap_pen) as Hborder.
    { destruct Hexit as [-> | ->].
      - by rewrite opt_penalty_row0.
      - rewrite opt_penalty_col0. f_equal. lia. }
    rewrite Hopt, Hborder, Hlen in Hlt. nia.
  - f_equal.
    apply (while_loop_raised _ _ _ _ _ _ _ _ _ Hstep Hinit) in Hloop
      as (st0 & (Hil & Hjl & _) & Hi & Hj & Hbody).
    destruct (loop_body_on_built_table x y gap_pen pen_map t Htot Hcells st0)
      as (a0 & b0 & _ & _ & Heq); [lia | lia |].
    rewrite Heq in Hbody. destruct (select_case _ _ _); congruence.
  - by apply while_loop_fuel in Hloop.
Qed.

(** ** Claims on the reconstructor and on the public operation *)

Lemma table_final_cell_is_minimum_witness :
  0 ≤ 2 ∧ pen_total dna_pen (str_of "AGGGCT") (str_of "AGGCA")
  ∧ ∃ t v, build_subproblems (str_of "AGGGCT") (str_of "AGGCA") 2 dna_pen = Returned t
           ∧ cell t 6 5 = Some v
           ∧ (∃ al, aligns (str_of "AGGGCT") (str_of "AGGCA") al
                    ∧ alignment_penalty 2 dna_pen al = v)
           ∧ (∀ al, aligns (str_of "AGGGCT") (str_of "AGGCA") al
                    → v ≤ alignment_penalty 2 dna_pen al).
Proof.
  split; [lia |]. split; [solve_pen_total |].
  apply (table_final_cell_is_minimum (str_of "AGGGCT") (str_of "AGGCA") 2 dna_pen);
    [lia | solve_pen_total].
Defined.

Lemma table_invariant_witness :
  ∃ t, build_subproblems (str_of "AGGGCT") (str_of "AGGCA") 2 dna_pen = Returned t
       ∧ has_shape 6 5 t
       ∧ (∀ i, (i ≤ 6)%nat → cell t i 0 = Some (Z.of_nat i * 2))
       ∧ (∀ j, (j ≤ 5)%nat → cell t 0 j = Some (Z.of_nat j * 2))
       ∧ (∀ i j, (1 ≤ i ≤ 6)%nat → (1 ≤ j ≤ 5)%nat →
            ∃ a b p d u l,
              str_of "AGGGCT" !! (i - 1)%nat = Some a ∧ str_of "AGGCA" !! (j - 1)%nat = Some b
              ∧ pen_lookup dna_pen a b = Returned p
              ∧ cell t (i - 1) (j - 1) = Some d
              ∧ cell t (i - 1) j = Some u
              ∧ cell t i (j - 1) = Some l
              ∧ cell t i j = Some (min3 (d + p) (u + 2) (l + 2)))
       ∧ (∀ i j, (i ≤ 6)%nat → (j ≤ 5)%nat → ∃ v, cell t i j = Some v ∧ 0 ≤ v).
Proof.
  apply (table_invariant (str_of "AGGGCT") (str_of "AGGCA") 2 dna_pen);
    [discriminate | discriminate | lia | solve_pen_nonempty "A"%char
    | solve_pen_total | solve_pen_nonneg].
Defined.

(** The table of the scenario X = "AGGGCT", Y = "AGGCA", gap penalty 2,
    penalty 0 for identical symbols and 3 for distinct ones: its final cell
    is 5, and 5 is the minimum penalty over all alignments of X and Y. *)
Lemma example_minimum_penalty :
  ∃ t, build_subproblems (str_of "AGGGCT") (str_of "AGGCA") 2 dna_pen = Returned t
       ∧ cell t 6 5 = Some 5
       ∧ (∃ al, aligns (str_of "AGGGCT") (str_of "AGGCA") al ∧ alignment_penalty 2 dna_pen al = 5)
       ∧ (∀ al, aligns (str_of "AGGGCT") (str_of "AGGCA") al → 5 ≤ alignment_penalty 2 dna_pen al)
       ∧ ∀ t', build_subproblems (str_of "AGGGCT") (str_of "AGGCA") 2 dna_pen = Returned t' →
               cell t' 6 5 = Some 5.
Proof.
  assert (Htot : pen_total dna_pen (str_of "AGGGCT") (str_of "AGGCA")) by solve_pen_total.
  assert (Hopt : opt_penalty (str_of "AGGGCT") (str_of "AGGCA") 2 dna_pen 6 5 = 5)
    by (vm_compute; reflexivity).
  destruct (build_subproblems_total _ _ 2 _ Htot) as (t & Hb & _ & Hcells).
  exists t. split; [done |].
  split; [by rewrite (Hcells 6%nat 5%nat), Hopt by (simpl; lia) |].
  split; [| split].
  - destruct (opt_penalty_attained (str_of "AGGGCT") (str_of "AGGCA") 2 dna_pen 6 5)
      as (al & Hal & Hc); [simpl; lia | simpl; lia |].
    exists al. split; [exact Hal | by rewrite Hc].
  - intros al Hal. rewrite <- Hopt.
    apply opt_penalty_lower_bound; [lia | simpl; lia | simpl; lia | exact Hal].
  - intros t' Hb'. rewrite Hb in Hb'. injection Hb' as <-.
    by rewrite (Hcells 6%nat 5%nat), Hopt by (simpl; lia).
Qed.

(** C9.  On the scenario X = "AGGGCT", Y = "AGGCA", gap penalty 2, penalty
    0 for identical symbols and 3 for distinct ones, the table is built and
    its final cell is the expected 5; but cell (6, 5) equals its diagonal
    candidate, cell (5, 4) + 3, so the first iteration of the backtracking
    enters the diagonal branch and the operation raises [TypeError] at
    [y -= 1]: no invocation returns a result. *)
Theorem example_scenario_raises_TypeError :
  build_subproblems (str_of "AGGGCT") (str_of "AGGCA") 2 dna_pen
  = Returned [[0; 2; 4; 6; 8; 10]; [2; 0; 2; 4; 6; 8]; [4; 2; 0; 2; 4; 6];
              [6; 4; 2; 0; 2; 4]; [8; 6; 4; 2; 3; 5]; [10; 8; 6; 4; 2; 4];
              [12; 10; 8; 6; 4; 5]]
  ∧ pen_lookup dna_pen "T" "A" = Returned 3
  ∧ loop_body (str_of "AGGGCT") (str_of "AGGCA") 2 dna_pen
      [[0; 2; 4; 6; 8; 10]; [2; 0; 2; 4; 6; 8]; [4; 2; 0; 2; 4; 6];
       [6; 4; 2; 0; 2; 4]; [8; 6; 4; 2; 3; 5]; [10; 8; 6; 4; 2; 4];
       [12; 10; 8; 6; 4; 5]]
      (State [] [] 6 5)
    = Raised TypeError
  ∧ sequence_alignment (str_of "AGGGCT") (str_of "AGGCA") 2 dna_pen = Raised TypeError
  ∧ ∀ out, sequence_alignment (str_of "AGGGCT") (str_of "AGGCA") 2 dna_pen
           ≠ Returned out.
Proof.
  assert (Hop : sequence_alignment (str_of "AGGGCT") (str_of "AGGCA") 2 dna_pen
                = Raised TypeError) by (vm_compute; reflexivity).
  split; [by vm_compute |]. split; [by vm_compute |]. split; [by vm_compute |].
  split; [exact Hop |]. intros out. rewrite Hop. discriminate.
Qed.

(** C3.  At X = Y = "A" with gap penalty 1 and penalty 0 for the pair
    (A, A), the table is [[0, 1], [1, 0]] and cell (1, 1) equals its diagonal
    candidate; the iteration of the reconstructor at (1, 1) enters the
    diagonal branch and raises [TypeError] at [y -= 1] instead of
    decrementing [j], and so does the whole operation. *)
Theorem diagonal_step_raises_TypeError :
  build_subproblems (str_of "A") (str_of "A") 1 dna_pen = Returned [[0; 1]; [1; 0]]
  ∧ select_case 0 (0 + 0) (1 + 1) = Case1
  ∧ loop_body (str_of "A") (str_of "A") 1 dna_pen [[0; 1]; [1; 0]] (State [] [] 1 1)
    = Raised TypeError
  ∧ sequence_alignment (str_of "A") (str_of "A") 1 dna_pen = Raised TypeError.
Proof. by vm_compute. Qed.

(** C4.  At X = "AB", Y = "C" with gap penalty 1 and penalty 10 for every
    pair, the loop exits with i = 0 and j = 1 after two up-gap steps; the
    code then prepends one gap marker to Sx and leaves Sy without the
    remaining "C".  Symmetrically, when the loop exits with i = 2 and j = 0
    (here on a table that makes the left-gap step the choice at (2, 1)), two
    gap markers are prepended to Sy and Sx is left without the remaining
    "AB". *)
Theorem padding_omits_remaining_symbols :
  sequence_alignment (str_of "AB") (str_of "C") 1 flat_pen = Returned [str_of " AB"; str_of "  "]
  ∧ pad_and_return (State (str_of "AB") (str_of "  ") 0 1) = [str_of " AB"; str_of "  "]
  ∧ _reconstruct_optimal_alignment (str_of "AB") (str_of "C") 1 flat_pen [[0; 1]; [1; 5]; [2; 3]]
    = Returned [str_of " "; str_of "  C"]
  ∧ pad_and_return (State (str_of " ") (str_of "C") 2 0) = [str_of " "; str_of "  C"].
Proof. by vm_compute. Qed.

(** C2.  The pair returned by the reconstructor is not an alignment: on the
    scenario X = "AGGGCT", Y = "AGGCA" the operation raises [TypeError],
    and on X = "AB", Y = "C" it returns Sx = " AB" and Sy = "  ", of
    lengths 3 and 2, where Sy stripped of its gap markers is empty, not
    Y. *)
Theorem returned_pair_is_not_an_alignment :
  sequence_alignment (str_of "AGGGCT") (str_of "AGGCA") 2 dna_pen = Raised TypeError
  ∧ sequence_alignment (str_of "AB") (str_of "C") 1 flat_pen = Returned [str_of " AB"; str_of "  "]
  ∧ length (str_of " AB") ≠ length (str_of "  ")
  ∧ strip_gaps (str_of "  ") = [] ∧ strip_gaps (str_of "  ") ≠ str_of "C".
Proof. by vm_compute. Qed.

(** C10.  At X = Y = "A" with gap penalty 1 and penalty -1 for the pair
    (A, A), the input passes the checks and the table is built with the
    negative entry (cell (1, 1) is -1), but the operation raises [TypeError]
    in the reconstructor instead of returning a result. *)
Theorem negative_penalty_used_then_TypeError :
  build_subproblems (str_of "A") (str_of "A") 1 neg_pen = Returned [[0; 1]; [1; -1]]
  ∧ sequence_alignment (str_of "A") (str_of "A") 1 neg_pen ≠ Returned []
  ∧ sequence_alignment (str_of "A") (str_of "A") 1 neg_pen = Raised TypeError.
Proof. by vm_compute. Qed.

(** C8, as stated, fails: for X = "" and Y = "A" the operation raises no
    error at all; it returns the empty list. *)
Lemma empty_first_sequence_raises_nothing :
  sequence_alignment [] (str_of "A") 1 dna_pen = Returned []
  ∧ ¬ ∃ e, sequence_alignment [] (str_of "A") 1 dna_pen = Raised e.
Proof. split; [reflexivity | intros [e He]; discriminate He]. Qed.

(** C8, amended.  With an empty first sequence, whatever the second
    sequence, the gap penalty and the map, the operation returns the empty
    list: no error is raised and no single-gap alignment is produced. *)
Theorem empty_first_sequence_returns_empty (y : str) (gap_pen : Z)
    (pen_map : gmap ascii (gmap ascii Z)) :
  sequence_alignment [] y gap_pen pen_map = Returned []
  ∧ (∀ e, sequence_alignment [] y gap_pen pen_map ≠ Raised e)
  ∧ ∀ sx' sy', sequence_alignment [] y gap_pen pen_map ≠ Returned [sx'; sy'].
Proof. by unfold sequence_alignment. Qed.

(** C7.  An input that violates a precondition gets no table and no
    alignment: with X or Y empty, a negative gap penalty or an empty map the
    operation returns the empty list; with these four in order but no entry
    for some pair of a symbol of X and a symbol of Y, which the recurrence
    is bound to meet, it raises [KeyError] and assumes no default penalty. *)
Theorem precondition_violation_gives_no_result (x y : str) (gap_pen : Z)
    (pen_map : gmap ascii (gmap ascii Z)) :
  x = [] ∨ y = [] ∨ gap_pen < 0 ∨ pen_map = ∅
  ∨ (∃ a b, a ∈ x ∧ b ∈ y ∧ pen_lookup pen_map a b = Raised KeyError) →
  (sequence_alignment x y gap_pen pen_map = Returned []
   ∧ (x = [] ∨ y = [] ∨ gap_pen < 0 ∨ pen_map = ∅))
  ∨ (sequence_alignment x y gap_pen pen_map = Raised KeyError
     ∧ x ≠ [] ∧ y ≠ [] ∧ 0 ≤ gap_pen ∧ pen_map ≠ ∅
     ∧ build_subproblems x y gap_pen pen_map = Raised KeyError).
Proof.
  intros Hviol.
  destruct (decide (x = [] ∨ y = [] ∨ gap_pen < 0 ∨ pen_map = ∅)) as [Hfour | Hok].
  - left. split; [by apply sequence_alignment_rejected | done].
  - right.
    assert (x ≠ []) as Hx by (intros ->; apply Hok; auto).
    assert (y ≠ []) as Hy by (intros ->; apply Hok; auto).
    assert (0 ≤ gap_pen) as Hg
      by (destruct (decide (gap_pen < 0)); [exfalso; apply Hok; auto | lia]).
    assert (pen_map ≠ ∅) as Hp by (intros ->; apply Hok; auto).
    destruct Hviol as [? | [? | [? | [? | (a & b & Ha & Hb & Hmiss)]]]];
      try (exfalso; apply Hok; by auto).
    pose proof (build_subproblems_missing x y gap_pen pen_map a b Ha Hb Hmiss) as Hbuild.
    rewrite sequence_alignment_accepted, Hbuild by done. done.
Qed.

Lemma precondition_violation_gives_no_result_witness :
  (∃ a b, a ∈ str_of "AX" ∧ b ∈ str_of "A" ∧ pen_lookup dna_pen a b = Raised KeyError)
  ∧ sequence_alignment (str_of "AX") (str_of "A") 1 dna_pen = Raised KeyError.
Proof.
  assert (Hmiss : ∃ a b, a ∈ str_of "AX" ∧ b ∈ str_of "A"
                         ∧ pen_lookup dna_pen a b = Raised KeyError).
  { exists "X"%char, "A"%char. split; [| split].
    - apply list_elem_of_In. simpl. auto.
    - apply list_elem_of_In. simpl. auto.
    - vm_compute. reflexivity. }
  split; [exact Hmiss |].
  destruct (precondition_violation_gives_no_result (str_of "AX") (str_of "A") 1 dna_pen)
    as [[Hret _] | [Hraised _]].
  - right. right. right. right. exact Hmiss.
  - vm_compute in Hret. discriminate Hret.
  - exact Hraised.
Defined.

(** The order of the comparisons.  At a position (i, j) with i, j >= 1
    the branch is selected by
    comparing [dp[i][j]] with the diagonal candidate first and with the
    up-gap candidate second, whatever else ties: when the diagonal candidate
    equals [dp[i][j]] the diagonal branch (case 1) is selected, also when the
    up-gap or the left-gap candidate ties with it; otherwise, when the
    up-gap candidate equals [dp[i][j]], the up-gap step is taken, also when
    the left-gap candidate ties; the left-gap step is taken only when
    neither equals [dp[i][j]].  The iteration then runs the selected
    branch. *)
Lemma tie_break_order (x y : str) (gap_pen : Z)
    (pen_map : gmap ascii (gmap ascii Z)) (dp : table) (st : state)
    (a b : ascii) (p d u l r : Z) :
  (1 ≤ i_ st)%nat → (1 ≤ j_ st)%nat →
  x !! (i_ st - 1)%nat = Some a → y !! (j_ st - 1)%nat = Some b →
  pen_lookup pen_map a b = Returned p →
  cell dp (i_ st - 1) (j_ st - 1) = Some d →
  cell dp (i_ st - 1) (j_ st) = Some u →
  cell dp (i_ st) (j_ st - 1) = Some l →
  cell dp (i_ st) (j_ st) = Some r →
  let diag := d + p in
  let up := u + gap_pen in
  let left := l + gap_pen in
  (r = diag → select_case r diag up = Case1)
  ∧ (r ≠ diag → r = up →
       select_case r diag up = Case2
       ∧ loop_body x y gap_pen pen_map dp st
         = Returned (State (a :: sx st) (gap_marker :: sy st) (i_ st - 1) (j_ st)))
  ∧ (r ≠ diag → r ≠ up →
       select_case r diag up = Case3
       ∧ loop_body x y gap_pen pen_map dp st
         = Returned (State (gap_marker :: sx st) (b :: sy st) (i_ st) (j_ st - 1)))
  ∧ (r = left → r ≠ diag → r ≠ up → select_case r diag up = Case3)
  ∧ loop_body x y gap_pen pen_map dp st
    = match select_case r diag up with
      | Case1 => Raised TypeError
      | Case2 => Returned (State (a :: sx st) (gap_marker :: sy st)
                                 (i_ st - 1) (j_ st))
      | Case3 => Returned (State (gap_marker :: sx st) (b :: sy st)
                                 (i_ st) (j_ st - 1))
      end.
Proof.
  intros _ _ Ha Hb Hp Hd Hu Hl Hr diag up left. subst diag up left.
  pose proof (loop_body_reads x y gap_pen pen_map dp st a b p d u r Ha Hb Hd Hp Hu Hr)
    as Hbody.
  split; [apply select_case_diag |]. split; [| split; [| split]].
  - intros H1 H2. rewrite Hbody.
    rewrite (select_case_up r (d + p) (u + gap_pen) H1 H2). by split.
  - intros H1 H2. rewrite Hbody.
    rewrite (select_case_left r (d + p) (u + gap_pen) H1 H2). by split.
  - intros _ H1 H2. by apply select_case_left.
  - exact Hbody.
Qed.

Lemma tie_break_order_witness :
  select_case 3 (1 + 10) (2 + 1) = Case2
  ∧ loop_body (str_of "AB") (str_of "C") 1 flat_pen [[0; 1]; [1; 2]; [2; 3]] (State [] [] 2 1)
    = Returned (State (str_of "B") (str_of " ") 1 1).
Proof.
  destruct (tie_break_order (str_of "AB") (str_of "C") 1 flat_pen [[0; 1]; [1; 2]; [2; 3]]
              (State [] [] 2 1) "B"%char "C"%char 10 1 2 2 3)
    as (_ & Hup & _); try reflexivity; try (simpl; lia).
  apply Hup; [discriminate | reflexivity].
Defined.

(** C6.  At X = "AB", Y = "C" with gap penalty 5 and penalty 10 for every
    pair, the table is [[0, 5], [5, 10], [10, 15]] and at position (2, 1)
    the three candidates tie with the cell: 5 + 10, 10 + 5 and 10 + 5 are
    all 15.  The code compares with the diagonal candidate first, but the
    diagonal branch raises [TypeError] at [y -= 1]: no diagonal step is
    taken and the operation returns nothing. *)
Theorem tie_with_diagonal_raises_TypeError :
  build_subproblems (str_of "AB") (str_of "C") 5 flat_pen
  = Returned [[0; 5]; [5; 10]; [10; 15]]
  ∧ pen_lookup flat_pen "B" "C" = Returned 10
  ∧ get_cell [[0; 5]; [5; 10]; [10; 15]] 2 1 = Returned (5 + 10)
  ∧ get_cell [[0; 5]; [5; 10]; [10; 15]] 1 0 = Returned 5
  ∧ get_cell [[0; 5]; [5; 10]; [10; 15]] 1 1 = Returned (15 - 5)
  ∧ get_cell [[0; 5]; [5; 10]; [10; 15]] 2 0 = Returned (15 - 5)
  ∧ loop_body (str_of "AB") (str_of "C") 5 flat_pen [[0; 5]; [5; 10]; [10; 15]]
      (State [] [] 2 1)
    = Raised TypeError
  ∧ sequence_alignment (str_of "AB") (str_of "C") 5 flat_pen = Raised TypeError.
Proof. by vm_compute. Qed.

(** ** Further properties of the operation *)

(** When every pair met has an entry, the map is total. *)
Lemma all_present_total (x y : str) (pen_map : gmap ascii (gmap ascii Z)) :
  (∀ i j, (1 ≤ i ≤ length x)%nat → (1 ≤ j ≤ length y)%nat →
          pair_present x y pen_map i j) →
  pen_total pen_map x y.
Proof.
  intros Hpres a b Ha Hb.
  destruct (pair_met_at_cell x y a b Ha Hb) as (i & j & Hi & Hj & Hxa & Hyb).
  destruct (Hpres i j Hi Hj) as (a' & b' & p & Hxa' & Hyb' & Hp).
  exists p. congruence.
Qed.

(** A pair that is missing at a cell is a pair of X and Y. *)
Lemma pair_missing_elem (x y : str) (pen_map : gmap ascii (gmap ascii Z)) (i j : nat) :
  pair_missing x y pen_map i j →
  ∃ a b, a ∈ x ∧ b ∈ y ∧ pen_lookup pen_map a b = Raised KeyError.
Proof.
  intros (a & b & Ha & Hb & Hmiss). exists a, b.
  split; [by eapply list_elem_of_lookup_2 |].
  split; [by eapply list_elem_of_lookup_2 | done].
Qed.

(** The reconstructor on the table of the builder, for a total map: what
    it returns was reached by gap steps only, and [TypeError] is the only
    exception. *)
Lemma reconstruct_on_built_table (x y : str) (gap_pen : Z)
    (pen_map : gmap ascii (gmap ascii Z)) (t : table) :
  pen_total pen_map x y →
  (∀ i j, (i ≤ length x)%nat → (j ≤ length y)%nat →
          cell t i j = Some (opt_penalty x y gap_pen pen_map i j)) →
  match _reconstruct_optimal_alignment x y gap_pen pen_map t with
  | Returned out =>
      ∃ st, while_loop (length x + length y) x y gap_pen pen_map t
              (State [] [] (length x) (length y)) = Returned st
            ∧ on_gap_path x y gap_pen pen_map st
            ∧ (i_ st = 0%nat ∨ j_ st = 0%nat)
            ∧ out = pad_and_return st
  | Raised e => e = TypeError
  | NoFuel => False
  end.
Proof.
  intros Htot Hcells. unfold _reconstruct_optimal_alignment.
  pose proof (on_gap_path_step x y gap_pen pen_map t Htot Hcells) as Hstep.
  assert (Hinit : on_gap_path x y gap_pen pen_map (State [] [] (length x) (length y))).
  { unfold on_gap_path. simpl. repeat split; lia. }
  destruct (while_loop _ _ _ _ _ _ _) as [st | e |] eqn:Hloop; simpl.
  - exists st. split; [done |].
    apply (while_loop_exit _ _ _ _ _ _ _ _ _ Hstep Hinit) in Hloop as [Hpath Hexit].
    done.
  - apply (while_loop_raised _ _ _ _ _ _ _ _ _ Hstep Hinit) in Hloop
      as (st0 & (Hil & Hjl & _) & Hi & Hj & Hbody).
    destruct (loop_body_on_built_table x y gap_pen pen_map t Htot Hcells st0)
      as (a0 & b0 & _ & _ & Heq); [lia | lia |].
    rewrite Heq in Hbody. destruct (select_case _ _ _); congruence.
  - by apply while_loop_fuel in Hloop.
Qed.

(** The outcomes of the operation, by kind of input. *)
Lemma sequence_alignment_outcomes (x y : str) (gap_pen : Z)
    (pen_map : gmap ascii (gmap ascii Z)) :
  (sequence_alignment x y gap_pen pen_map = Returned []
   ∧ (x = [] ∨ y = [] ∨ gap_pen < 0 ∨ pen_map = ∅))
  ∨ (sequence_alignment x y gap_pen pen_map = Raised KeyError
     ∧ x ≠ [] ∧ y ≠ [] ∧ 0 ≤ gap_pen ∧ pen_map ≠ ∅
     ∧ ∃ a b, a ∈ x ∧ b ∈ y ∧ pen_lookup pen_map a b = Raised KeyError)
  ∨ (x ≠ [] ∧ y ≠ [] ∧ 0 ≤ gap_pen ∧ pen_map ≠ ∅ ∧ pen_total pen_map x y
     ∧ ∃ t, build_subproblems x y gap_pen pen_map = Returned t
            ∧ (∀ i j, (i ≤ length x)%nat → (j ≤ length y)%nat →
                      cell t i j = Some (opt_penalty x y gap_pen pen_map i j))
            ∧ sequence_alignment x y gap_pen pen_map
              = _reconstruct_optimal_alignment x y gap_pen pen_map t).
Proof.
  destruct (decide (x = [] ∨ y = [] ∨ gap_pen < 0 ∨ pen_map = ∅)) as [Hfour | Hok].
  - left. split; [by apply sequence_alignment_rejected | done].
  - right.
    assert (x ≠ []) as Hx by (intros ->; apply Hok; auto).
    assert (y ≠ []) as Hy by (intros ->; apply Hok; auto).
    assert (0 ≤ gap_pen) as Hg
      by (destruct (decide (gap_pen < 0)); [exfalso; apply Hok; auto | lia]).
    assert (pen_map ≠ ∅) as Hp by (intros ->; apply Hok; auto).
    rewrite sequence_alignment_accepted by done.
    destruct (build_subproblems_cases x y gap_pen pen_map)
      as [(t & Hb & _ & Hcells & Hpres) | (Hb & i & j & _ & _ & Hmiss)]; rewrite Hb.
    + right. repeat (split; [done |]).
      split; [by apply all_present_total |]. by exists t.
    + left. repeat (split; [done |]). by eapply pair_missing_elem.
Qed.

(** A result of the loop does not depend on the iterations left over. *)
Lemma while_loop_more_fuel (x y : str) (gap_pen : Z)
    (pen_map : gmap ascii (gmap ascii Z)) (dp : table) (fuel extra : nat) (st : state) :
  while_loop fuel x y gap_pen pen_map dp st ≠ NoFuel →
  while_loop (fuel + extra) x y gap_pen pen_map dp st
  = while_loop fuel x y gap_pen pen_map dp st.
Proof.
  revert st. induction fuel as [| fuel IH]; intros st;
    rewrite (while_loop_unfold _ _ _ _ _ (_ + extra)), (while_loop_unfold _ _ _ _ _ _ st);
    destruct ((1 <=? i_ st)%nat && (1 <=? j_ st)%nat); try done.
  simpl. destruct (loop_body x y gap_pen pen_map dp st) as [st' | e |]; simpl; try done.
  apply IH.
Qed.

(** X1.  The empty list is returned exactly when one of the three checks
    of lines 55-63 fails: X or Y empty, a negative gap penalty, or an empty
    penalty map.  An input that passes them never yields the empty list. *)
Theorem empty_result_iff_rejected (x y : str) (gap_pen : Z)
    (pen_map : gmap ascii (gmap ascii Z)) :
  sequence_alignment x y gap_pen pen_map = Returned []
  ↔ x = [] ∨ y = [] ∨ gap_pen < 0 ∨ pen_map = ∅.
Proof.
  split; [| apply sequence_alignment_rejected].
  intros Hret.
  destruct (sequence_alignment_outcomes x y gap_pen pen_map)
    as [[_ Hfour] | [[Hraised _] | (Hx & Hy & _ & _ & _ & t & _ & _ & Heq)]].
  - done.
  - congruence.
  - rewrite Heq in Hret.
    apply reconstruct_lengths_differ in Hret as (? & ? & [=] & _); done.
Qed.

(** X2.  The operation raises [KeyError] exactly when the input passes the
    checks and the penalty map has no entry for some pair of a symbol of X
    and a symbol of Y.  With a map that covers all these pairs it never
    does. *)
Theorem KeyError_iff_missing_entry (x y : str) (gap_pen : Z)
    (pen_map : gmap ascii (gmap ascii Z)) :
  sequence_alignment x y gap_pen pen_map = Raised KeyError
  ↔ x ≠ [] ∧ y ≠ [] ∧ 0 ≤ gap_pen ∧ pen_map ≠ ∅
    ∧ ∃ a b, a ∈ x ∧ b ∈ y ∧ pen_lookup pen_map a b = Raised KeyError.
Proof.
  split.
  - intros Hraised.
    destruct (sequence_alignment_outcomes x y gap_pen pen_map)
      as [[Hret _] | [(_ & H) | (_ & _ & _ & _ & Htot & t & _ & Hcells & Heq)]].
    + congruence.
    + exact H.
    + rewrite Heq in Hraised.
      pose proof (reconstruct_on_built_table x y gap_pen pen_map t Htot Hcells) as Hrec.
      rewrite Hraised in Hrec. discriminate Hrec.
  - intros (Hx & Hy & Hg & Hp & a & b & Ha & Hb & Hmiss).
    rewrite sequence_alignment_accepted by done.
    by rewrite (build_subproblems_missing x y gap_pen pen_map a b Ha Hb Hmiss).
Qed.

(** X3.  Whatever the input, the operation returns a value or raises
    [KeyError] or [TypeError]: every subscript of the strings and of the
    table is within bounds, so [IndexError] is never raised. *)
Theorem subscripts_stay_in_bounds (x y : str) (gap_pen : Z)
    (pen_map : gmap ascii (gmap ascii Z)) :
  ((∃ out, sequence_alignment x y gap_pen pen_map = Returned out)
   ∨ sequence_alignment x y gap_pen pen_map = Raised KeyError
   ∨ sequence_alignment x y gap_pen pen_map = Raised TypeError)
  ∧ sequence_alignment x y gap_pen pen_map ≠ Raised IndexError.
Proof.
  destruct (sequence_alignment_outcomes x y gap_pen pen_map)
    as [[Hret _] | [[Hraised _] | (_ & _ & _ & _ & Htot & t & _ & Hcells & Heq)]].
  - rewrite Hret. split; [left; by eexists | done].
  - rewrite Hraised. split; [by right; left | done].
  - rewrite Heq.
    pose proof (reconstruct_on_built_table x y gap_pen pen_map t Htot Hcells) as Hrec.
    destruct (_reconstruct_optimal_alignment x y gap_pen pen_map t) as [out | e |].
    + split; [left; by eexists | done].
    + subst e. split; [by right; right | done].
    + done.
Qed.

(** X4.  Whatever table the reconstructor is given, its loop ends within
    [len(x) + len(y)] iterations: allowing more iterations changes
    nothing, and the bound itself is never hit. *)
Theorem backtracking_ends_within_bound (x y : str) (gap_pen : Z)
    (pen_map : gmap ascii (gmap ascii Z)) (dp : table) (extra : nat) :
  while_loop (length x + length y + extra) x y gap_pen pen_map dp
    (State [] [] (length x) (length y))
  = while_loop (length x + length y) x y gap_pen pen_map dp
      (State [] [] (length x) (length y))
  ∧ _reconstruct_optimal_alignment x y gap_pen pen_map dp ≠ NoFuel.
Proof.
  assert (Hfuel : while_loop (length x + length y) x y gap_pen pen_map dp
                    (State [] [] (length x) (length y)) ≠ NoFuel)
    by (apply while_loop_fuel; simpl; lia).
  split; [by apply while_loop_more_fuel |].
  unfold _reconstruct_optimal_alignment.
  by destruct (while_loop _ _ _ _ _ _ _).
Qed.

(** ** What the operation returns for a total map *)

Section GapStepsOnly.
Variables (x y : str) (gap_pen : Z) (pen_map : gmap ascii (gmap ascii Z)).
Hypothesis Htotal : pen_total pen_map x y.
Abbreviation opt := (opt_penalty x y gap_pen pen_map).

(** What holds of every entry for a pair of X and Y holds of the penalty
    met at a cell. *)
Lemma pen_at_elim (P : Z → Prop) (i j : nat) :
  (∀ a b p, a ∈ x → b ∈ y → pen_lookup pen_map a b = Returned p → P p) →
  (i < length x)%nat → (j < length y)%nat → P (pen_at x y pen_map i j).
Proof.
  intros HP Hi Hj.
  destruct (lookup_lt_is_Some_2 x i Hi) as [a Ha].
  destruct (lookup_lt_is_Some_2 y j Hj) as [b Hb].
  assert (a ∈ x) as Hax by (by eapply list_elem_of_lookup_2).
  assert (b ∈ y) as Hby by (by eapply list_elem_of_lookup_2).
  destruct (Htotal a b Hax Hby) as [p Hp].
  rewrite (pen_at_present _ _ _ _ _ _ _ _ Ha Hb Hp). eauto.
Qed.

(** A substitution cheaper than two gaps makes the optimum cheaper than
    the alignment made of gaps only. *)
Lemma opt_penalty_cheap_pair (a b : ascii) (p : Z) :
  0 ≤ gap_pen → a ∈ x → b ∈ y → pen_lookup pen_map a b = Returned p →
  p < 2 * gap_pen →
  opt (length x) (length y) < Z.of_nat (length x + length y) * gap_pen.
Proof.
  intros Hg [i Hi]%list_elem_of_lookup_1 [j Hj]%list_elem_of_lookup_1 Hp Hcheap.
  pose proof (lookup_lt_Some _ _ _ Hi) as Hil.
  pose proof (lookup_lt_Some _ _ _ Hj) as Hjl.
  pose proof (opt_penalty_diag x y gap_pen pen_map i j) as Hd.
  rewrite (pen_at_present _ _ _ _ _ _ _ _ Hi Hj Hp) in Hd.
  pose proof (opt_penalty_all_gaps x y gap_pen pen_map i j) as Hij.
  pose proof (opt_penalty_extend x y gap_pen pen_map (S i) (S j)
                (length x - S i) (length y - S j)) as Hext.
  replace (S i + (length x - S i))%nat with (length x) in Hext by lia.
  replace (S j + (length y - S j))%nat with (length y) in Hext by lia.
  replace (Z.of_nat (length x + length y))
    with (Z.of_nat (i + j) + 2 + Z.of_nat (length x - S i + (length y - S j))) by lia.
  nia.
Qed.

(** When no substitution is cheaper than two gaps, gaps only are optimal
    for every pair of prefixes. *)
Lemma opt_penalty_dear_pairs (i j : nat) :
  (∀ a b p, a ∈ x → b ∈ y → pen_lookup pen_map a b = Returned p → 2 * gap_pen ≤ p) →
  (i ≤ length x)%nat → (j ≤ length y)%nat →
  opt i j = Z.of_nat (i + j) * gap_pen.
Proof.
  intros Hdear. revert j. induction i as [| i IHi]; intros j Hi Hj.
  - by rewrite opt_penalty_row0.
  - induction j as [| j IHj].
    + rewrite opt_penalty_col0. f_equal. lia.
    + rewrite opt_penalty_step, (IHi j), (IHi (S j)), IHj by lia.
      pose proof (pen_at_elim (λ p, 2 * gap_pen ≤ p) i j Hdear ltac:(lia) ltac:(lia)).
      unfold min3. simpl in *. lia.
Qed.

Variable t : table.
Hypothesis Hcells : ∀ i j, (i ≤ length x)%nat → (j ≤ length y)%nat →
                           cell t i j = Some (opt i j).
Hypothesis Hdear :
  ∀ a b p, a ∈ x → b ∈ y → pen_lookup pen_map a b = Returned p → 2 * gap_pen ≤ p.

(** In the last column, with gaps only optimal, an iteration takes the
    up-gap step unless the diagonal candidate ties. *)
Lemma loop_body_last_column (st : state) :
  (1 ≤ i_ st ≤ length x)%nat → (1 ≤ j_ st)%nat → j_ st = length y →
  ∃ a, x !! (i_ st - 1)%nat = Some a
       ∧ loop_body x y gap_pen pen_map t st
         = if decide (pen_at x y pen_map (i_ st - 1) (j_ st - 1) = 2 * gap_pen)
           then Raised TypeError
           else Returned (State (a :: sx st) (gap_marker :: sy st)
                                (i_ st - 1) (j_ st)).
Proof.
  intros Hi Hj Hjn.
  destruct (loop_body_on_built_table x y gap_pen pen_map t Htotal Hcells st)
    as (a & b & Ha & _ & Heq); [lia | lia |].
  exists a. split; [done |]. rewrite Heq.
  rewrite !opt_penalty_dear_pairs by (done || lia).
  replace (Z.of_nat (i_ st - 1 + (j_ st - 1))) with (Z.of_nat (i_ st + j_ st) - 2) by lia.
  replace (Z.of_nat (i_ st - 1 + j_ st)) with (Z.of_nat (i_ st + j_ st) - 1) by lia.
  destruct (decide (pen_at x y pen_map (i_ st - 1) (j_ st - 1) = 2 * gap_pen))
    as [He | Hne].
  - rewrite select_case_diag; [done | lia].
  - rewrite select_case_up; [done | lia | lia].
Qed.

Lemma straight_up_step (st st' : state) :
  (1 ≤ i_ st)%nat → (1 ≤ j_ st)%nat → straight_up x y st →
  loop_body x y gap_pen pen_map t st = Returned st' → straight_up x y st'.
Proof.
  intros Hi Hj (Hjn & Hil & Hsx & Hsy) Hbody.
  destruct (loop_body_last_column st) as (a & Ha & Heq); [lia | lia | done |].
  rewrite Heq in Hbody. case_decide; [done |]. injection Hbody as <-.
  unfold straight_up. cbn [i_ j_ sx sy].
  split; [done |]. split; [lia |]. split.
  - rewrite Hsx. replace (i_ st) with (S (i_ st - 1)) at 1 by lia.
    symmetry. by apply drop_S.
  - rewrite Hsy.
    replace (length x - (i_ st - 1))%nat with (S (length x - i_ st)) by lia.
    done.
Qed.

(** Going straight up from row [i] reaches row 0 when every pair costs
    more than two gaps. *)
Lemma straight_up_run (i fuel : nat) :
  (∀ a b p, a ∈ x → b ∈ y → pen_lookup pen_map a b = Returned p → 2 * gap_pen < p) →
  (1 ≤ length y)%nat → (i ≤ length x)%nat → (i ≤ fuel)%nat →
  while_loop fuel x y gap_pen pen_map t
    (State (drop i x) (replicate (length x - i) gap_marker) i (length y))
  = Returned (State x (replicate (length x) gap_marker) 0 (length y)).
Proof.
  intros Hstrict Hn. revert fuel. induction i as [| i IH]; intros fuel Hi Hfuel.
  - rewrite while_loop_unfold. simpl. by rewrite Nat.sub_0_r.
  - destruct fuel as [| fuel]; [lia |].
    rewrite while_loop_unfold. cbn [i_ j_].
    replace (1 <=? S i)%nat with true by (symmetry; by apply Nat.leb_le; lia).
    replace (1 <=? length y)%nat with true by (symmetry; by apply Nat.leb_le).
    cbn [andb].
    destruct (loop_body_last_column
                (State (drop (S i) x) (replicate (length x - S i) gap_marker)
                       (S i) (length y)))
      as (a & Ha & Heq); [simpl; lia | simpl; lia | done |].
    rewrite Heq. cbn [i_ j_ sx sy] in *.
    pose proof (pen_at_elim (λ p, 2 * gap_pen < p) (S i - 1) (length y - 1)
                  Hstrict ltac:(lia) ltac:(lia)) as Hp. cbv beta in Hp.
    case_decide; [lia |].
    replace (S i - 1)%nat with i in * by lia. simpl.
    rewrite <- (drop_S _ _ _ Ha).
    replace (gap_marker :: replicate (length x - S i) gap_marker)
      with (replicate (length x - i) gap_marker)
      by (replace (length x - i)%nat with (S (length x - S i)) by lia; done).
    apply IH; lia.
Qed.
End GapStepsOnly.

(** A path of gap steps that has reached a border accounts for the cost
    of gaps only. *)
Lemma gap_path_exit_cost (x y : str) (gap_pen : Z)
    (pen_map : gmap ascii (gmap ascii Z)) (st : state) :
  on_gap_path x y gap_pen pen_map st → i_ st = 0%nat ∨ j_ st = 0%nat →
  opt_penalty x y gap_pen pen_map (length x) (length y)
  = Z.of_nat (length x + length y) * gap_pen.
Proof.
  destruct st as [sx0 sy0 i j]. unfold on_gap_path. cbn [i_ j_ sx sy].
  intros (Hil & Hjl & Hlen & Hopt) Hexit. rewrite Hopt, Hlen.
  destruct Hexit as [-> | ->].
  - rewrite opt_penalty_row0.
    replace (Z.of_nat (length x + length y))
      with (Z.of_nat j + Z.of_nat (length x - 0 + (length y - j))) by lia.
    lia.
  - rewrite opt_penalty_col0.
    replace (Z.of_nat (length x + length y))
      with (Z.of_nat i + Z.of_nat (length x - i + (length y - 0))) by lia.
    lia.
Qed.

(** With a substitution cheaper than two gaps the backtracking cannot reach
    a border by gap steps alone. *)
Lemma cheap_pair_no_return (x y : str) (gap_pen : Z)
    (pen_map : gmap ascii (gmap ascii Z)) (t : table) (a b : ascii) (p : Z) :
  0 ≤ gap_pen → pen_total pen_map x y →
  (∀ i j, (i ≤ length x)%nat → (j ≤ length y)%nat →
          cell t i j = Some (opt_penalty x y gap_pen pen_map i j)) →
  a ∈ x → b ∈ y → pen_lookup pen_map a b = Returned p → p < 2 * gap_pen →
  _reconstruct_optimal_alignment x y gap_pen pen_map t = Raised TypeError.
Proof.
  intros Hg Htot Hcells Ha Hb Hp Hcheap.
  pose proof (reconstruct_on_built_table x y gap_pen pen_map t Htot Hcells) as Hrec.
  destruct (_reconstruct_optimal_alignment x y gap_pen pen_map t) as [out | e |].
  - exfalso. destruct Hrec as (st & _ & Hpath & Hexit & _).
    pose proof (gap_path_exit_cost x y gap_pen pen_map st Hpath Hexit).
    pose proof (opt_penalty_cheap_pair x y gap_pen pen_map a b p Hg Ha Hb Hp Hcheap).
    lia.
  - by subst e.
  - done.
Qed.

(** X6.  For an input that passes the checks, with a map total over the
    pairs of X and Y: when some symbol of X and some symbol of Y have a
    substitution penalty below twice the gap penalty, the operation raises
    [TypeError].  (An equal pair with penalty 0 and a positive gap penalty is
    such a pair, and so is any negative penalty.) *)
Theorem cheap_pair_raises_TypeError (x y : str) (gap_pen : Z)
    (pen_map : gmap ascii (gmap ascii Z)) (a b : ascii) (p : Z) :
  0 ≤ gap_pen → pen_total pen_map x y →
  a ∈ x → b ∈ y → pen_lookup pen_map a b = Returned p → p < 2 * gap_pen →
  sequence_alignment x y gap_pen pen_map = Raised TypeError.
Proof.
  intros Hg Htot Ha Hb Hp Hcheap.
  destruct (sequence_alignment_outcomes x y gap_pen pen_map)
    as [[_ Hfour] | [(_ & _ & _ & _ & _ & a' & b' & Ha' & Hb' & Hmiss)
                    | (_ & _ & _ & _ & _ & t & _ & Hcells & ->)]].
  - exfalso. destruct Hfour as [-> | [-> | [? | ->]]].
    + by apply not_elem_of_nil in Ha.
    + by apply not_elem_of_nil in Hb.
    + lia.
    + unfold pen_lookup in Hp. by rewrite lookup_empty in Hp.
  - destruct (Htot a' b' Ha' Hb') as [p' Hp']. congruence.
  - by eapply cheap_pair_no_return.
Qed.

Lemma cheap_pair_raises_TypeError_witness :
  sequence_alignment (str_of "AGGGCT") (str_of "AGGCA") 2 dna_pen = Raised TypeError.
Proof.
  apply (cheap_pair_raises_TypeError (str_of "AGGGCT") (str_of "AGGCA") 2 dna_pen
           "A"%char "A"%char 0).
  - lia.
  - solve_pen_total.
  - apply list_elem_of_In. simpl. auto.
  - apply list_elem_of_In. simpl. auto.
  - vm_compute. reflexivity.
  - lia.
Defined.

(** X5.  Whatever the input, a value the operation returns is the empty
    list or the pair made of X preceded by [len(y)] gap markers and of
    [len(x)] gap markers: no symbol of Y ever appears in a returned pair. *)
Theorem returned_value_is_x_against_gaps (x y : str) (gap_pen : Z)
    (pen_map : gmap ascii (gmap ascii Z)) (out : list str) :
  sequence_alignment x y gap_pen pen_map = Returned out →
  out = []
  ∨ out = [replicate (length y) gap_marker ++ x; replicate (length x) gap_marker].
Proof.
  intros Hret.
  destruct (sequence_alignment_outcomes x y gap_pen pen_map)
    as [[Hrej _] | [[Hraised _] | (_ & Hy & Hg & _ & Htot & t & _ & Hcells & Heq)]].
  - left. congruence.
  - congruence.
  - right. rewrite Heq in Hret.
    assert (Hdear : ∀ a b p, a ∈ x → b ∈ y →
                             pen_lookup pen_map a b = Returned p → 2 * gap_pen ≤ p).
    { intros a b p Ha Hb Hp.
      destruct (decide (p < 2 * gap_pen)) as [Hcheap | ?]; [| lia].
      rewrite (cheap_pair_no_return x y gap_pen pen_map t a b p) in Hret; done. }
    unfold _reconstruct_optimal_alignment in Hret.
    apply bind_Returned in Hret as (st & Hloop & [= <-]).
    apply (while_loop_exit _ _ _ _ _ (straight_up x y)) in Hloop
      as [(Hjn & _ & Hsx & Hsy) Hexit].
    + assert (length y ≠ 0%nat) by (by destruct y).
      assert (i_ st = 0%nat) as Hi0 by lia.
      unfold pad_and_return. rewrite Hi0 in *. rewrite Hjn.
      destruct (decide (0%nat ≠ 0%nat)); [done |].
      destruct (decide (length y ≠ 0%nat)); [| done].
      by rewrite Hsx, Hsy, Nat.sub_0_r.
    + intros st0 st1. by apply straight_up_step.
    + unfold straight_up. simpl.
      by rewrite drop_all, Nat.sub_diag.
Qed.

Lemma returned_value_is_x_against_gaps_witness :
  [str_of " AB"; str_of "  "] = []
  ∨ [str_of " AB"; str_of "  "]
    = [replicate (length (str_of "C")) gap_marker ++ str_of "AB";
       replicate (length (str_of "AB")) gap_marker].
Proof.
  apply (returned_value_is_x_against_gaps (str_of "AB") (str_of "C") 1 flat_pen).
  vm_compute. reflexivity.
Defined.

(** X7.  For an input that passes the checks, with a map total over the
    pairs of X and Y in which every such pair costs more than two gaps, the
    operation returns X preceded by [len(y)] gap markers, paired with
    [len(x)] gap markers. *)
Theorem dear_pairs_return_x_against_gaps (x y : str) (gap_pen : Z)
    (pen_map : gmap ascii (gmap ascii Z)) :
  x ≠ [] → y ≠ [] → 0 ≤ gap_pen → pen_total pen_map x y →
  (∀ a b p, a ∈ x → b ∈ y → pen_lookup pen_map a b = Returned p → 2 * gap_pen < p) →
  sequence_alignment x y gap_pen pen_map
  = Returned [replicate (length y) gap_marker ++ x; replicate (length x) gap_marker].
Proof.
  intros Hx Hy Hg Htot Hstrict.
  destruct (sequence_alignment_outcomes x y gap_pen pen_map)
    as [[_ Hfour] | [(_ & _ & _ & _ & _ & a' & b' & Ha' & Hb' & Hmiss)
                    | (_ & _ & _ & _ & _ & t & _ & Hcells & ->)]].
  - exfalso. destruct Hfour as [-> | [-> | [? | ->]]]; try done; try lia.
    destruct x as [| a x']; [done |]. destruct y as [| b y']; [done |].
    destruct (Htot a b) as [p Hp]; [apply list_elem_of_here .. |].
    unfold pen_lookup in Hp. by rewrite lookup_empty in Hp.
  - destruct (Htot a' b' Ha' Hb') as [p' Hp']. congruence.
  - unfold _reconstruct_optimal_alignment.
    assert (length y ≠ 0%nat) by (by destruct y).
    pose proof (straight_up_run x y gap_pen pen_map Htot t Hcells
                  ltac:(intros a b p Ha Hb Hp; pose proof (Hstrict a b p Ha Hb Hp); lia)
                  (length x) (length x + length y) Hstrict
                  ltac:(lia) ltac:(lia) ltac:(lia)) as Hrun.
    rewrite drop_all, Nat.sub_diag in Hrun. simpl in Hrun. rewrite Hrun. simpl.
    unfold pad_and_return. simpl.
    destruct (decide (0%nat ≠ 0%nat)); [done |].
    by destruct (decide (length y ≠ 0%nat)).
Qed.

Lemma dear_pairs_return_x_against_gaps_witness :
  sequence_alignment (str_of "AB") (str_of "C") 1 flat_pen
  = Returned [replicate (length (str_of "C")) gap_marker ++ str_of "AB";
              replicate (length (str_of "AB")) gap_marker].
Proof.
  apply (dear_pairs_return_x_against_gaps (str_of "AB") (str_of "C") 1 flat_pen).
  - discriminate.
  - discriminate.
  - lia.
  - solve_pen_total.
  - intros a b p Ha Hb Hp. each_symbol Ha Hb; vm_compute in Hp;
      injection Hp as <-; lia.
Defined.

(** ** The reconstructor on its own *)

(** X8.  With an empty X or an empty Y the reconstructor performs no
    iteration and reads neither the table nor the map: it returns
    [len(y)] gap markers paired with the empty string, respectively the
    empty string paired with [len(x)] gap markers. *)
Theorem reconstruct_with_an_empty_string (x y : str) (gap_pen : Z)
    (pen_map : gmap ascii (gmap ascii Z)) (dp : table) :
  _reconstruct_optimal_alignment [] y gap_pen pen_map dp
  = Returned [replicate (length y) gap_marker; []]
  ∧ _reconstruct_optimal_alignment x [] gap_pen pen_map dp
    = Returned [[]; replicate (length x) gap_marker].
Proof.
  unfold _reconstruct_optimal_alignment. rewrite !while_loop_unfold.
  cbn [i_ j_ length]. split.
  - simpl. unfold pad_and_return. simpl.
    destruct (decide (0%nat ≠ 0%nat)); [done |].
    destruct (decide (length y ≠ 0%nat)) as [| Hz]; [by rewrite app_nil_r |].
    destruct y; [done | simpl in Hz; lia].
  - rewrite andb_false_r. simpl. unfold pad_and_return. simpl.
    destruct (decide (length x ≠ 0%nat)) as [| Hz]; [by rewrite app_nil_r |].
    destruct (decide (0%nat ≠ 0%nat)); [done |].
    destruct x; [done | simpl in Hz; lia].
Qed.

(** X9.  Whatever table the reconstructor is given, for non-empty X and
    Y a pair it returns has one string of length exactly
    [len(x) + len(y)] and the other strictly shorter. *)
Theorem reconstructed_lengths (x y : str) (gap_pen : Z)
    (pen_map : gmap ascii (gmap ascii Z)) (dp : table) (out : list str) :
  x ≠ [] → y ≠ [] →
  _reconstruct_optimal_alignment x y gap_pen pen_map dp = Returned out →
  ∃ sx' sy', out = [sx'; sy']
    ∧ (length sx' `max` length sy' = length x + length y)%nat
    ∧ (length sx' `min` length sy' < length x + length y)%nat.
Proof.
  intros Hx Hy. unfold _reconstruct_optimal_alignment.
  intros (st & Hloop & [= <-])%bind_Returned.
  apply (while_loop_exit _ _ _ _ _
           (λ st, length (sx st) = (length x - i_ st + (length y - j_ st))%nat
                  ∧ length (sy st) = (length x - i_ st + (length y - j_ st))%nat
                  ∧ (i_ st ≤ length x)%nat ∧ (j_ st ≤ length y)%nat
                  ∧ (1 ≤ i_ st + j_ st)%nat))
    in Hloop as [(Hlx & Hly & Hi & Hj & Hpos) Hexit].
  - unfold pad_and_return.
    destruct (decide (i_ st ≠ 0%nat)) as [Hi0 | Hi0].
    + eexists _, _. split; [done |]. rewrite length_app, length_replicate. lia.
    + destruct (decide (j_ st ≠ 0%nat)) as [Hj0 | Hj0]; [| lia].
      eexists _, _. split; [done |]. rewrite length_app, length_replicate. lia.
  - intros st0 st1 Hi Hj (Hlx & Hly & Hil & Hjl & Hpos) Hbody.
    destruct (loop_body_Returned _ _ _ _ _ st0 st1 Hbody) as [[a ->] | [b ->]];
      cbn [i_ j_ sx sy length]; repeat split; lia.
  - simpl. destruct x; [done |]. simpl. repeat split; lia.
Qed.

Lemma reconstructed_lengths_witness :
  ∃ sx' sy', [str_of " "; str_of "  C"] = [sx'; sy']
    ∧ (length sx' `max` length sy' = length (str_of "AB") + length (str_of "C"))%nat
    ∧ (length sx' `min` length sy' < length (str_of "AB") + length (str_of "C"))%nat.
Proof.
  apply (reconstructed_lengths (str_of "AB") (str_of "C") 1 flat_pen
           [[0; 1]; [1; 5]; [2; 3]]).
  - discriminate.
  - discriminate.
  - vm_compute. reflexivity.
Defined.

(** ** Further properties of the table *)

(** Swapping the strings and the arguments of the penalty swaps the
    arguments of the recurrence. *)
Lemma opt_penalty_swap (x y : str) (gap_pen : Z)
    (pen_map pen_map' : gmap ascii (gmap ascii Z)) (i j : nat) :
  (∀ a b, a ∈ x → b ∈ y → pen_lookup pen_map' b a = pen_lookup pen_map a b) →
  (i ≤ length x)%nat → (j ≤ length y)%nat →
  opt_penalty y x gap_pen pen_map' j i = opt_penalty x y gap_pen pen_map i j.
Proof.
  intros Hswap. revert j. induction i as [| i IHi]; intros j Hi Hj.
  - by rewrite opt_penalty_row0, opt_penalty_col0.
  - induction j as [| j IHj].
    + by rewrite opt_penalty_row0, opt_penalty_col0.
    + rewrite !opt_penalty_step, (IHi j), (IHi (S j)), IHj by lia.
      assert (pen_at y x pen_map' j i = pen_at x y pen_map i j) as ->.
      { unfold pen_at, penalty.
        destruct (lookup_lt_is_Some_2 x i ltac:(lia)) as [a Ha].
        destruct (lookup_lt_is_Some_2 y j ltac:(lia)) as [b Hb].
        rewrite Ha, Hb, Hswap; [done | |]; by eapply list_elem_of_lookup_2. }
      unfold min3. lia.
Qed.

(** X10.  The table is symmetric under swapping the inputs: with a map
    total over the pairs of X and Y, building the table for (Y, X) with the
    penalties read in the swapped order gives the transposed table, so in
    particular the same final cell. *)
Theorem table_of_swapped_inputs (x y : str) (gap_pen : Z)
    (pen_map pen_map' : gmap ascii (gmap ascii Z)) :
  pen_total pen_map x y →
  (∀ a b, a ∈ x → b ∈ y → pen_lookup pen_map' b a = pen_lookup pen_map a b) →
  ∃ t t', build_subproblems x y gap_pen pen_map = Returned t
          ∧ build_subproblems y x gap_pen pen_map' = Returned t'
          ∧ ∀ i j, (i ≤ length x)%nat → (j ≤ length y)%nat →
                   cell t' j i = cell t i j.
Proof.
  intros Htot Hswap.
  assert (Htot' : pen_total pen_map' y x).
  { intros b a Hb Ha. rewrite Hswap by done. by apply Htot. }
  destruct (build_subproblems_total x y gap_pen pen_map Htot) as (t & Hb & _ & Hcells).
  destruct (build_subproblems_total y x gap_pen pen_map' Htot') as (t' & Hb' & _ & Hcells').
  exists t, t'. split; [done |]. split; [done |].
  intros i j Hi Hj. rewrite Hcells, Hcells' by done.
  f_equal. by apply opt_penalty_swap.
Qed.

Lemma table_of_swapped_inputs_witness :
  ∃ t t', build_subproblems (str_of "AGGGCT") (str_of "AGGCA") 2 dna_pen = Returned t
          ∧ build_subproblems (str_of "AGGCA") (str_of "AGGGCT") 2 dna_pen = Returned t'
          ∧ ∀ i j, (i ≤ 6)%nat → (j ≤ 5)%nat → cell t' j i = cell t i j.
Proof.
  apply (table_of_swapped_inputs (str_of "AGGGCT") (str_of "AGGCA") 2 dna_pen dna_pen).
  - solve_pen_total.
  - intros a b Ha Hb. each_symbol Ha Hb; vm_compute; reflexivity.
Defined.

(** A cell is at least the cost of the gaps that the difference of the
    prefix lengths forces. *)
Lemma opt_penalty_gap_lower (x y : str) (gap_pen : Z)
    (pen_map : gmap ascii (gmap ascii Z)) (i j : nat) :
  0 ≤ gap_pen → pen_total pen_map x y → pen_nonneg pen_map x y →
  (i ≤ length x)%nat → (j ≤ length y)%nat →
  (Z.of_nat i - Z.of_nat j) * gap_pen ≤ opt_penalty x y gap_pen pen_map i j
  ∧ (Z.of_nat j - Z.of_nat i) * gap_pen ≤ opt_penalty x y gap_pen pen_map i j.
Proof.
  intros Hg Htot Hnn. revert j. induction i as [| i IHi]; intros j Hi Hj.
  - rewrite opt_penalty_row0. nia.
  - induction j as [| j IHj].
    + rewrite opt_penalty_col0. nia.
    + rewrite opt_penalty_step. unfold min3.
      pose proof (IHi j ltac:(lia) ltac:(lia)).
      pose proof (IHi (S j) ltac:(lia) ltac:(lia)).
      pose proof (IHj ltac:(lia)).
      pose proof (pen_at_elim x y pen_map Htot (λ p, 0 ≤ p) i j Hnn ltac:(lia) ltac:(lia)).
      simpl in *. nia.
Qed.

(** X11.  With a gap penalty [>= 0] and a total map with non-negative
    entries, every cell [(i, j)] of the table lies between
    [|i - j| * gap_pen], the gaps that the difference of the lengths forces,
    and [(i + j) * gap_pen], the cost of gaps only. *)
Theorem table_cell_bounds (x y : str) (gap_pen : Z)
    (pen_map : gmap ascii (gmap ascii Z)) :
  0 ≤ gap_pen → pen_total pen_map x y → pen_nonneg pen_map x y →
  ∃ t, build_subproblems x y gap_pen pen_map = Returned t
       ∧ ∀ i j, (i ≤ length x)%nat → (j ≤ length y)%nat →
           ∃ v, cell t i j = Some v
                ∧ Z.abs (Z.of_nat i - Z.of_nat j) * gap_pen ≤ v
                ∧ v ≤ Z.of_nat (i + j) * gap_pen.
Proof.
  intros Hg Htot Hnn.
  destruct (build_subproblems_total x y gap_pen pen_map Htot) as (t & Hb & _ & Hcells).
  exists t. split; [done |]. intros i j Hi Hj.
  eexists. split; [by apply Hcells |]. split.
  - destruct (opt_penalty_gap_lower x y gap_pen pen_map i j Hg Htot Hnn Hi Hj).
    destruct (Z.abs_spec (Z.of_nat i - Z.of_nat j)) as [[_ ->] | [_ ->]]; lia.
  - apply opt_penalty_all_gaps.
Qed.

Lemma table_cell_bounds_witness :
  ∃ t, build_subproblems (str_of "AGGGCT") (str_of "AGGCA") 2 dna_pen = Returned t
       ∧ ∀ i j, (i ≤ 6)%nat → (j ≤ 5)%nat →
           ∃ v, cell t i j = Some v
                ∧ Z.abs (Z.of_nat i - Z.of_nat j) * 2 ≤ v
                ∧ v ≤ Z.of_nat (i + j) * 2.
Proof.
  apply (table_cell_bounds (str_of "AGGGCT") (str_of "AGGCA") 2 dna_pen);
    [lia | solve_pen_total | solve_pen_nonneg].
Defined.

(** X12.  Aligning a string with itself: with a gap penalty [>= 0] and a
    total map with non-negative entries that charges 0 for each symbol of X
    against itself, the final cell of the table for (X, X) is 0. *)
Theorem table_of_equal_strings (x : str) (gap_pen : Z)
    (pen_map : gmap ascii (gmap ascii Z)) :
  0 ≤ gap_pen → pen_total pen_map x x → pen_nonneg pen_map x x →
  (∀ a, a ∈ x → pen_lookup pen_map a a = Returned 0) →
  ∃ t, build_subproblems x x gap_pen pen_map = Returned t
       ∧ cell t (length x) (length x) = Some 0.
Proof.
  intros Hg Htot Hnn Hzero.
  destruct (build_subproblems_total x x gap_pen pen_map Htot) as (t & Hb & _ & Hcells).
  exists t. split; [done |]. rewrite Hcells by done. f_equal.
  assert (Hdiag : ∀ i, (i ≤ length x)%nat → opt_penalty x x gap_pen pen_map i i = 0).
  { induction i as [| i IH]; intros Hi; [done |].
    rewrite opt_penalty_step, IH by lia.
    destruct (lookup_lt_is_Some_2 x i ltac:(lia)) as [a Ha].
    rewrite (pen_at_present _ _ _ _ _ _ _ _ Ha Ha
               (Hzero a ltac:(by eapply list_elem_of_lookup_2))).
    pose proof (opt_penalty_nonneg x x gap_pen pen_map i (S i) Hg Hnn).
    pose proof (opt_penalty_nonneg x x gap_pen pen_map (S i) i Hg Hnn).
    unfold min3. lia. }
  by apply Hdiag.
Qed.

Lemma table_of_equal_strings_witness :
  ∃ t, build_subproblems (str_of "AGGCA") (str_of "AGGCA") 2 dna_pen = Returned t
       ∧ cell t 5 5 = Some 0.
Proof.
  apply (table_of_equal_strings (str_of "AGGCA") 2 dna_pen).
  - lia.
  - solve_pen_total.
  - solve_pen_nonneg.
  - intros a Ha. apply list_elem_of_In in Ha. simpl in Ha.
    repeat match goal with
           | H : _ ∨ _ |- _ => destruct H as [H | H]
           | H : False |- _ => destruct H
           end; subst; vm_compute; reflexivity.
Defined.
